(** * Horizontal timeline: progress computation and synchronisation engine

    A shallow embedding of the numeric core of [src/horizontalTimeline.js]
    (class [WMHorizontalTimeline]): [calculateDimensions], [updateTimeline],
    [goToIndex], [goNext], [goPrev], [updateArrowStates], [destroy] and the
    arrow-mode resize handler installed by [bindEvents].

    Numbers.  A JavaScript number is modelled by [num]: a finite value, which
    is an exact rational, or one of the three special values an arithmetic
    operation of the program can produce ([Infinity], [-Infinity], [NaN]).
    Rounding of finite results is not modelled, and zero carries no sign: the
    only divisors of the program are a difference of two lengths and a DOM
    pixel width, neither of which is the negative zero of IEEE 754.  The
    decimal literal [0.3] is the rational 3/10.

    DOM.  What the page answers to the queries of one synchronous pass
    ([querySelector], [getBoundingClientRect], [offsetWidth], ...) is the
    record [env]; a missing element is [None].  What the passes write (styles,
    class flags, instance fields) is the record [state]. *)

From Stdlib Require Import QArith Qminmax ZArith List Bool Lia Lqa.
Import ListNotations.

Local Open Scope Q_scope.

(* ================================================================== *)
(** * Part I: definitions *)
(* ================================================================== *)

(** ** JavaScript numbers *)

Module JS.

Inductive num : Type :=
| Fin (q : Q)
| PInf
| NInf
| NaN.

(** Same value: finite values are compared as rationals. *)
Definition same (x y : num) : Prop :=
  match x, y with
  | Fin p, Fin q => p == q
  | PInf, PInf | NInf, NInf | NaN, NaN => True
  | _, _ => False
  end.

(** Unary minus. *)
Definition neg (x : num) : num :=
  match x with
  | Fin q => Fin (- q)
  | PInf => NInf
  | NInf => PInf
  | NaN => NaN
  end.

(** [x + y] *)
Definition add (x y : num) : num :=
  match x, y with
  | NaN, _ | _, NaN => NaN
  | Fin p, Fin q => Fin (p + q)
  | PInf, NInf | NInf, PInf => NaN
  | PInf, _ | _, PInf => PInf
  | NInf, _ | _, NInf => NInf
  end.

(** [x - y] *)
Definition sub (x y : num) : num := add x (neg y).

(** The infinity of the sign of [c * s], where [s] is +1 for [pos = true]. *)
Definition signedInf (pos : bool) (c : comparison) : num :=
  match c with
  | Eq => NaN
  | Gt => if pos then PInf else NInf
  | Lt => if pos then NInf else PInf
  end.

(** [x * y] *)
Definition mul (x y : num) : num :=
  match x, y with
  | NaN, _ | _, NaN => NaN
  | Fin p, Fin q => Fin (p * q)
  | PInf, Fin q | Fin q, PInf => signedInf true (q ?= 0)
  | NInf, Fin q | Fin q, NInf => signedInf false (q ?= 0)
  | PInf, PInf | NInf, NInf => PInf
  | PInf, NInf | NInf, PInf => NInf
  end.

(** [x / y]; a finite zero divisor gives an infinity of the sign of the
    dividend, or [NaN] for 0/0. *)
Definition div (x y : num) : num :=
  match x, y with
  | NaN, _ | _, NaN => NaN
  | Fin p, Fin q =>
      if Qeq_bool q 0 then
        match p ?= 0 with
        | Eq => NaN
        | Gt => PInf
        | Lt => NInf
        end
      else Fin (p / q)
  | Fin _, PInf | Fin _, NInf => Fin 0
  | PInf, Fin q => if Qle_bool 0 q then PInf else NInf
  | NInf, Fin q => if Qle_bool 0 q then NInf else PInf
  | _, _ => NaN
  end.

(** [x <= y]; false as soon as one side is [NaN]. *)
Definition le (x y : num) : bool :=
  match x, y with
  | NaN, _ | _, NaN => false
  | Fin p, Fin q => Qle_bool p q
  | NInf, _ => true
  | _, PInf => true
  | _, _ => false
  end.

(** [x >= y] *)
Definition ge (x y : num) : bool := le y x.

(** [x < y] *)
Definition lt (x y : num) : bool :=
  match x, y with
  | NaN, _ | _, NaN => false
  | _, _ => negb (le y x)
  end.

(** [Math.min(x, y)] *)
Definition min (x y : num) : num :=
  match x, y with
  | NaN, _ | _, NaN => NaN
  | _, _ => if le x y then x else y
  end.

(** [Math.max(x, y)] *)
Definition max (x y : num) : num :=
  match x, y with
  | NaN, _ | _, NaN => NaN
  | _, _ => if le x y then y else x
  end.

(** Truthiness of a number, as tested by [||]. *)
Definition truthy (x : num) : bool :=
  match x with
  | Fin q => negb (Qeq_bool q 0)
  | NaN => false
  | _ => true
  end.

(** A value in the closed unit interval; no special value is. *)
Definition inUnit (x : num) : Prop :=
  match x with
  | Fin q => 0 <= q <= 1
  | _ => False
  end.

End JS.

Import JS.

Declare Scope js_scope.
Delimit Scope js_scope with js.
Bind Scope js_scope with num.
Infix "=n=" := same (at level 70, no associativity) : js_scope.
Local Open Scope js_scope.

(** ** The Progress Mapper (inside [updateTimeline]) *)

(** [Math.max(0, Math.min(1, scrollStart / scrollRange))], the expression
    both orientations end with (lines 415 and 445). *)
Definition progressOf (scrollStart scrollRange : num) : num :=
  JS.max (Fin 0) (JS.min (Fin 1) (JS.div scrollStart scrollRange)).

(** Horizontal branch (lines 442-445): [rectTop] is
    [scrollSpacer.getBoundingClientRect().top], [scrollHeight] the instance
    field, [contentHeight] the sticky wrapper's height. *)
Definition horizontalScrollStart (rectTop : num) : num := JS.neg rectTop.

Definition horizontalScrollRange (scrollHeight contentHeight : num) : num :=
  JS.sub scrollHeight contentHeight.

Definition horizontalProgress (rectTop scrollHeight contentHeight : num) : num :=
  progressOf (horizontalScrollStart rectTop)
             (horizontalScrollRange scrollHeight contentHeight).

(** Vertical branch (lines 410-415): [areaTop], [areaHeight] come from the
    timeline area's bounding rectangle. *)
Definition threshold (viewportHeight : num) : num :=
  JS.mul viewportHeight (Fin (3 # 10)).

Definition verticalScrollStart (areaTop viewportHeight : num) : num :=
  JS.sub (threshold viewportHeight) areaTop.

Definition verticalScrollRange (areaHeight viewportHeight : num) : num :=
  JS.sub areaHeight (threshold viewportHeight).

Definition verticalProgress (areaTop areaHeight viewportHeight : num) : num :=
  progressOf (verticalScrollStart areaTop viewportHeight)
             (verticalScrollRange areaHeight viewportHeight).

(** ** Configuration, page geometry and instance state *)

Inductive navigation : Type := Scroll | Arrows.
Inductive layout : Type := Horizontal | Vertical.

Definition navigation_eqb (a b : navigation) : bool :=
  match a, b with
  | Scroll, Scroll | Arrows, Arrows => true
  | _, _ => false
  end.

Definition layout_eqb (a b : layout) : bool :=
  match a, b with
  | Horizontal, Horizontal | Vertical, Vertical => true
  | _, _ => false
  end.

(** [this.settings] *)
Record settings : Type := mkSettings {
  scrollPerItem : num;
  navigationType : navigation;
  mobileLayout : layout
}.

(** A bounding client rectangle. *)
Record rect : Type := mkRect {
  left : Q;
  top : Q;
  width : Q;
  height : Q
}.

(** [offsetLeft] and [offsetWidth] of one [.wm-timeline-item]. *)
Record itemBox : Type := mkItemBox {
  offsetLeft : Q;
  offsetWidth : Q
}.

(** Bounding rectangle and [offsetWidth] of the progress track. *)
Record trackBox : Type := mkTrackBox {
  trackRect : rect;
  trackOffsetWidth : Q
}.

(** The answers of the page during one pass. *)
Record env : Type := mkEnv {
  innerWidth : Q;                      (* window.innerWidth *)
  innerHeight : Q;                     (* window.innerHeight *)
  scrollSpacer : option rect;          (* .wm-timeline-scroll-spacer *)
  stickyWrapper : option Q;            (* .wm-timeline-sticky-wrapper, offsetHeight *)
  timelineArea : option rect;          (* .wm-timeline-area *)
  progressTrack : option trackBox;     (* .wm-timeline-progress-track *)
  progressContainer : option rect;     (* .wm-timeline-progress-container *)
  itemsContainer : option Q;           (* .wm-timeline-items-container, offsetWidth *)
  trackItems : list itemBox;           (* itemsTrack.querySelectorAll('.wm-timeline-item') *)
  trackScrollWidth : Q;                (* itemsTrack.scrollWidth *)
  dotRect : nat -> rect                (* this.dots[i].getBoundingClientRect() *)
}.

(** [scrollSpacer.style.height] *)
Inductive cssHeight : Type :=
| HeightUnset
| HeightAuto
| HeightPx (h : num).

(** Instance fields and the styles and class flags the passes write.  A
    transform [Some x] stands for [translateX(-x px)], a fill [Some p] for
    the length [p%]; a button is [Some disabled]. *)
Record state : Type := mkState {
  data : option nat;                   (* this.data: null, or an array of that length *)
  itemsTrack : bool;                   (* this.itemsTrack is not null *)
  labelsTrack : bool;                  (* this.labelsTrack is not undefined *)
  progressFill : bool;                 (* this.progressFill is not null *)
  dots : list bool;                    (* this.dots, with their filled flag *)
  scrollHeight : num;                  (* this.scrollHeight *)
  currentIndex : Z;                    (* this.currentIndex *)
  prevButton : option bool;
  nextButton : option bool;
  spacerHeight : cssHeight;
  itemsTransform : option num;
  labelsTransform : option num;
  fillWidth : option num;
  fillHeight : option num
}.

(** A pass either returns or is left by a [TypeError]; the writes made before
    the error stay. *)
Inductive outcome : Type :=
| Returns (s : state)
| Throws (s : state).

Definition final (o : outcome) : state :=
  match o with Returns s | Throws s => s end.

Definition threw (o : outcome) : bool :=
  match o with Returns _ => false | Throws _ => true end.

Definition andThen (o : outcome) (k : state -> outcome) : outcome :=
  match o with
  | Returns s => k s
  | Throws s => Throws s
  end.

Notation "x <- o ;; k" := (andThen o (fun x => k))
  (at level 61, o at next level, right associativity).

(** *** Field writes *)

Definition setScrollHeight (h : num) (s : state) : state :=
  mkState (data s) (itemsTrack s) (labelsTrack s) (progressFill s) (dots s)
          h (currentIndex s) (prevButton s) (nextButton s)
          (spacerHeight s) (itemsTransform s) (labelsTransform s)
          (fillWidth s) (fillHeight s).

Definition setSpacerHeight (h : cssHeight) (s : state) : state :=
  mkState (data s) (itemsTrack s) (labelsTrack s) (progressFill s) (dots s)
          (scrollHeight s) (currentIndex s) (prevButton s) (nextButton s)
          h (itemsTransform s) (labelsTransform s)
          (fillWidth s) (fillHeight s).

Definition setCurrentIndex (i : Z) (s : state) : state :=
  mkState (data s) (itemsTrack s) (labelsTrack s) (progressFill s) (dots s)
          (scrollHeight s) i (prevButton s) (nextButton s)
          (spacerHeight s) (itemsTransform s) (labelsTransform s)
          (fillWidth s) (fillHeight s).

Definition setDots (d : list bool) (s : state) : state :=
  mkState (data s) (itemsTrack s) (labelsTrack s) (progressFill s) d
          (scrollHeight s) (currentIndex s) (prevButton s) (nextButton s)
          (spacerHeight s) (itemsTransform s) (labelsTransform s)
          (fillWidth s) (fillHeight s).

Definition setButtons (p n : option bool) (s : state) : state :=
  mkState (data s) (itemsTrack s) (labelsTrack s) (progressFill s) (dots s)
          (scrollHeight s) (currentIndex s) p n
          (spacerHeight s) (itemsTransform s) (labelsTransform s)
          (fillWidth s) (fillHeight s).

Definition setItemsTransform (t : option num) (s : state) : state :=
  mkState (data s) (itemsTrack s) (labelsTrack s) (progressFill s) (dots s)
          (scrollHeight s) (currentIndex s) (prevButton s) (nextButton s)
          (spacerHeight s) t (labelsTransform s)
          (fillWidth s) (fillHeight s).

Definition setLabelsTransform (t : option num) (s : state) : state :=
  mkState (data s) (itemsTrack s) (labelsTrack s) (progressFill s) (dots s)
          (scrollHeight s) (currentIndex s) (prevButton s) (nextButton s)
          (spacerHeight s) (itemsTransform s) t
          (fillWidth s) (fillHeight s).

Definition setFillWidth (w : option num) (s : state) : state :=
  mkState (data s) (itemsTrack s) (labelsTrack s) (progressFill s) (dots s)
          (scrollHeight s) (currentIndex s) (prevButton s) (nextButton s)
          (spacerHeight s) (itemsTransform s) (labelsTransform s)
          w (fillHeight s).

Definition setFillHeight (h : option num) (s : state) : state :=
  mkState (data s) (itemsTrack s) (labelsTrack s) (progressFill s) (dots s)
          (scrollHeight s) (currentIndex s) (prevButton s) (nextButton s)
          (spacerHeight s) (itemsTransform s) (labelsTransform s)
          (fillWidth s) h.

(** [array.forEach((x, i) => ...)] rewriting each element in place. *)
Fixpoint forEachFrom {A B : Type} (f : nat -> A -> B) (i : nat) (l : list A) : list B :=
  match l with
  | [] => []
  | x :: l' => f i x :: forEachFrom f (S i) l'
  end.

Definition forEach {A B : Type} (f : nat -> A -> B) (l : list A) : list B :=
  forEachFrom f 0 l.

(** ** [calculateDimensions] (lines 365-395) *)

Definition isMobile (e : env) : bool := Qle_bool (innerWidth e) 767.

Definition isVerticalMobile (cfg : settings) (e : env) : bool :=
  isMobile e && layout_eqb (mobileLayout cfg) Vertical.

(** [stickyWrapper ? stickyWrapper.offsetHeight : viewportHeight] *)
Definition contentHeight (e : env) : Q :=
  match stickyWrapper e with
  | Some h => h
  | None => innerHeight e
  end.

(** [this.settings.scrollPerItem || 300] *)
Definition effectiveScrollPerItem (cfg : settings) : num :=
  if truthy (scrollPerItem cfg) then scrollPerItem cfg else Fin 300.

Definition calculateDimensions (cfg : settings) (e : env) (s : state) : state :=
  match data s with
  | None | Some O => s
  | Some itemCount =>
      match scrollSpacer e with
      | None => s
      | Some _ =>
          if navigation_eqb (navigationType cfg) Arrows || isVerticalMobile cfg e
          then setSpacerHeight HeightAuto s
          else
            let h := JS.add (Fin (contentHeight e))
                            (JS.mul (Fin (inject_Z (Z.of_nat itemCount)))
                                    (effectiveScrollPerItem cfg)) in
            setSpacerHeight (HeightPx h) (setScrollHeight h s)
      end
  end.

(** ** [updateTimeline] (lines 397-483) *)

(** Scroll-mode dot rule, horizontal: [progressFillRight >= dotCenter]. *)
Definition progressFillRight (progress : num) (progressRect : rect) : num :=
  JS.add (Fin (left progressRect)) (JS.mul progress (Fin (width progressRect))).

Definition dotCenterX (r : rect) : num :=
  JS.add (Fin (left r)) (JS.div (Fin (width r)) (Fin 2)).

Definition dotFilledX (progress : num) (progressRect : rect) (r : rect) : bool :=
  JS.ge (progressFillRight progress progressRect) (dotCenterX r).

(** Scroll-mode dot rule, vertical: [progressFillBottom >= dotCenter]. *)
Definition progressFillBottom (progress : num) (track : rect) : num :=
  JS.add (Fin (top track)) (JS.mul progress (Fin (height track))).

Definition dotCenterY (r : rect) : num :=
  JS.add (Fin (top r)) (JS.div (Fin (height r)) (Fin 2)).

Definition dotFilledY (progress : num) (track : rect) (r : rect) : bool :=
  JS.ge (progressFillBottom progress track) (dotCenterY r).

(** [this.dots.forEach(dot => ...)]: every dot is recomputed from its own
    rectangle. *)
Definition syncDotsX (progress : num) (progressRect : rect) (e : env)
           (ds : list bool) : list bool :=
  forEach (fun i _ => dotFilledX progress progressRect (dotRect e i)) ds.

Definition syncDotsY (progress : num) (track : rect) (e : env)
           (ds : list bool) : list bool :=
  forEach (fun i _ => dotFilledY progress track (dotRect e i)) ds.

(** [Math.max(0, trackWidth - containerWidth)] *)
Definition maxTranslate (trackWidth containerWidth : Q) : num :=
  JS.max (Fin 0) (JS.sub (Fin trackWidth) (Fin containerWidth)).

(** Both tracks receive the same [translateX]; the label track only when the
    field is set. *)
Definition moveTracks (translateX : num) (s : state) : state :=
  let s1 := setItemsTransform (Some translateX) s in
  if labelsTrack s1 then setLabelsTransform (Some translateX) s1 else s1.

Definition updateTimelineVertical (e : env) (s : state) : state :=
  match timelineArea e with
  | None => s
  | Some areaRect =>
      let progress :=
        verticalProgress (Fin (top areaRect)) (Fin (height areaRect))
                         (Fin (innerHeight e)) in
      let s1 := setFillWidth (Some (Fin 100))
                  (setFillHeight (Some (JS.mul progress (Fin 100))) s) in
      match progressTrack e with
      | Some track =>
          setDots (syncDotsY progress (trackRect track) e (dots s1)) s1
      | None => s1
      end
  end.

Definition updateTimelineHorizontal (e : env) (rct : rect) (s : state) : state :=
  let progress :=
    horizontalProgress (Fin (top rct)) (scrollHeight s) (Fin (contentHeight e)) in
  let s1 := setFillHeight (Some (Fin 100))
              (setFillWidth (Some (JS.mul progress (Fin 100))) s) in
  let s2 :=
    match itemsContainer e with
    | Some containerWidth =>
        if itemsTrack s1 then
          moveTracks (JS.mul progress (maxTranslate (trackScrollWidth e) containerWidth)) s1
        else s1
    | None => s1
    end in
  match progressContainer e with
  | Some progressRect =>
      setDots (syncDotsX progress progressRect e (dots s2)) s2
  | None => s2
  end.

Definition updateTimeline (cfg : settings) (e : env) (s : state) : state :=
  match scrollSpacer e with
  | None => s
  | Some rct =>
      if negb (itemsTrack s) || negb (progressFill s) then s
      else if isVerticalMobile cfg e then updateTimelineVertical e s
      else updateTimelineHorizontal e rct s
  end.

(** ** Arrow navigation: [goToIndex], [goNext], [goPrev], [updateArrowStates]
    (lines 486-556) *)

(** [Math.max(0, Math.min(index, itemCount - 1))] *)
Definition clampIndex (index : Z) (itemCount : nat) : Z :=
  Z.max 0 (Z.min index (Z.of_nat itemCount - 1)).

(** [Math.max(0, itemOffset - containerWidth / 2 + itemWidth / 2)] *)
Definition targetTranslate (item : itemBox) (containerWidth : Q) : num :=
  JS.max (Fin 0)
         (JS.add (JS.sub (Fin (offsetLeft item)) (JS.div (Fin containerWidth) (Fin 2)))
                 (JS.div (Fin (offsetWidth item)) (Fin 2))).

(** [Math.min(targetTranslate, maxTranslate)] *)
Definition arrowTranslateX (item : itemBox) (containerWidth trackWidth : Q) : num :=
  JS.min (targetTranslate item containerWidth) (maxTranslate trackWidth containerWidth).

(** The fill reaching the dot of the current item, before the last-item rule. *)
Definition geometricFillPercent (item : itemBox) (translateX : num)
           (progressTrackWidth : Q) : num :=
  let itemCenter :=
    JS.add (Fin (offsetLeft item)) (JS.div (Fin (offsetWidth item)) (Fin 2)) in
  let dotPositionAfterTranslate := JS.sub itemCenter translateX in
  JS.min (Fin 100)
         (JS.max (Fin 0)
                 (JS.mul (JS.div dotPositionAfterTranslate (Fin progressTrackWidth))
                         (Fin 100))).

Definition fillPercent (item : itemBox) (translateX : num) (progressTrackWidth : Q)
           (index : Z) (itemCount : nat) : num :=
  if (index =? Z.of_nat itemCount - 1)%Z then Fin 100
  else geometricFillPercent item translateX progressTrackWidth.

(** [dot.classList.toggle('wm-timeline-dot--filled', i <= this.currentIndex)] *)
Definition syncDotsByIndex (index : Z) (ds : list bool) : list bool :=
  forEach (fun i _ => (Z.of_nat i <=? index)%Z) ds.

Definition updateArrowStates (s : state) : outcome :=
  match prevButton s, nextButton s with
  | Some _, Some _ =>
      match data s with
      | None => Throws s
      | Some itemCount =>
          Returns (setButtons
                     (Some (currentIndex s =? 0)%Z)
                     (Some (Z.of_nat itemCount - 1 <=? currentIndex s)%Z) s)
      end
  | _, _ => Returns s
  end.

(** The guarded block of [goToIndex]: centre the current item and set the
    fill.  Writing the fill dereferences [this.progressFill]. *)
Definition centerCurrentItem (e : env) (itemCount : nat) (s : state) : outcome :=
  match itemsContainer e, progressTrack e with
  | Some containerWidth, Some track =>
      if itemsTrack s && negb (Nat.eqb (length (trackItems e)) 0) then
        match nth_error (trackItems e) (Z.to_nat (currentIndex s)),
              nth_error (dots s) (Z.to_nat (currentIndex s)) with
        | Some currentItem, Some _ =>
            let translateX :=
              arrowTranslateX currentItem containerWidth (trackScrollWidth e) in
            let s1 := moveTracks translateX s in
            if progressFill s1 then
              Returns (setFillWidth
                         (Some (fillPercent currentItem translateX (trackOffsetWidth track)
                                            (currentIndex s1) itemCount)) s1)
            else Throws s1
        | _, _ => Returns s
        end
      else Returns s
  | _, _ => Returns s
  end.

Definition goToIndex (e : env) (index : Z) (s : state) : outcome :=
  match data s with
  | None | Some O => Returns s
  | Some itemCount =>
      let s1 := setCurrentIndex (clampIndex index itemCount) s in
      s2 <- centerCurrentItem e itemCount s1 ;;
      updateArrowStates (setDots (syncDotsByIndex (currentIndex s2) (dots s2)) s2)
  end.

Definition goNext (e : env) (s : state) : outcome :=
  match data s with
  | None => Throws s
  | Some itemCount =>
      if (currentIndex s <? Z.of_nat itemCount - 1)%Z
      then goToIndex e (currentIndex s + 1) s
      else Returns s
  end.

Definition goPrev (e : env) (s : state) : outcome :=
  if (0 <? currentIndex s)%Z then goToIndex e (currentIndex s - 1) s else Returns s.

(** ** The debounced resize recomputation of arrow mode (in [bindEvents],
    lines 568-582)

    The timer is not modelled: [resizeArrows] is the body that runs once the
    100 ms have elapsed. *)

Definition resizeArrows (cfg : settings) (e : env) (s : state) : outcome :=
  let s1 := calculateDimensions cfg e s in
  if isVerticalMobile cfg e then Returns (updateTimeline cfg e s1)
  else goToIndex e (currentIndex s1) s1.

(** The resize recomputation of scroll mode. *)
Definition resizeScroll (cfg : settings) (e : env) (s : state) : state :=
  updateTimeline cfg e (calculateDimensions cfg e s).

(** ** Construction and teardown *)

(** The fields as the constructor leaves them before [init]. *)
Definition newInstance : state :=
  mkState None false false false [] (Fin 0) 0%Z None None
          HeightUnset None None None None.

(** [extractData]: [found] is the item count of the parsed context, or [None]
    when the container or its context is missing. *)
Definition extractData (found : option nat) (s : state) : state :=
  mkState found (itemsTrack s) (labelsTrack s) (progressFill s) (dots s)
          (scrollHeight s) (currentIndex s) (prevButton s) (nextButton s)
          (spacerHeight s) (itemsTransform s) (labelsTransform s)
          (fillWidth s) (fillHeight s).

(** [buildLayout]: one unfilled dot per item, the two tracks, the fill and,
    in arrow mode, the two buttons. *)
Definition buildLayout (cfg : settings) (contentWrapper : bool) (s : state) : state :=
  match data s with
  | None | Some O => s
  | Some itemCount =>
      if contentWrapper then
        let buttons :=
          if navigation_eqb (navigationType cfg) Arrows then Some false else None in
        mkState (data s) true true true (dots s ++ repeat false itemCount)
                (scrollHeight s) (currentIndex s) buttons buttons
                (spacerHeight s) (itemsTransform s) (labelsTransform s)
                (fillWidth s) (fillHeight s)
      else s
  end.

(** [init], up to the first scheduled frame. *)
Definition init (cfg : settings) (found : option nat) (contentWrapper : bool)
           (e : env) : state :=
  calculateDimensions cfg e (buildLayout cfg contentWrapper (extractData found newInstance)).

Definition destroy (s : state) : state :=
  mkState (data s) false (labelsTrack s) false []
          (scrollHeight s) (currentIndex s) (prevButton s) (nextButton s)
          (spacerHeight s) (itemsTransform s) (labelsTransform s)
          (fillWidth s) (fillHeight s).

(** ** The instance as a transition system

    Every callback the instance registers, and every public method, is an
    event; each fires on an arbitrary page.  The two resize events are
    registered in one navigation mode each; here they may fire in both. *)

Inductive event : Type :=
| EvUpdate                (* a scroll frame, or the size observer *)
| EvDimensions
| EvGoTo (index : Z)
| EvNext
| EvPrev
| EvResizeArrows
| EvResizeScroll
| EvDestroy.

Definition fire (cfg : settings) (e : env) (ev : event) (s : state) : outcome :=
  match ev with
  | EvUpdate => Returns (updateTimeline cfg e s)
  | EvDimensions => Returns (calculateDimensions cfg e s)
  | EvGoTo i => goToIndex e i s
  | EvNext => goNext e s
  | EvPrev => goPrev e s
  | EvResizeArrows => resizeArrows cfg e s
  | EvResizeScroll => Returns (resizeScroll cfg e s)
  | EvDestroy => Returns (destroy s)
  end.

Inductive reachable (cfg : settings) : state -> Prop :=
| reach_init (found : option nat) (contentWrapper : bool) (e : env) :
    reachable cfg (init cfg found contentWrapper e)
| reach_fire (s : state) (e : env) (ev : event) :
    reachable cfg s -> reachable cfg (final (fire cfg e ev s)).

(** ** Invariants of the transition system *)

(** The label track exists whenever the item track does, and both carry the
    same transform. *)
Definition tracksLocked (s : state) : Prop :=
  (itemsTrack s = true -> labelsTrack s = true)
  /\ itemsTransform s = labelsTransform s.

(** While the item track is referenced, so are the label track and the
    fill, and there is one dot per item. *)
Definition layoutConsistent (s : state) : Prop :=
  itemsTrack s = true ->
  labelsTrack s = true /\ progressFill s = true
  /\ data s = Some (length (dots s)) /\ (0 < length (dots s))%nat.

(** The current index designates an item, as soon as there is one. *)
Definition indexInRange (s : state) : Prop :=
  match data s with
  | Some itemCount =>
      (0 < itemCount)%nat -> (0 <= currentIndex s <= Z.of_nat itemCount - 1)%Z
  | None => True
  end.

(** ** The specification's formulas

    Written from the words of the specification, over exact rationals and
    integers, to be compared with the code above. *)

(** [clamp(x, lo, hi)] *)
Definition spec_clamp (x lo hi : Q) : Q := Qmax lo (Qmin hi x).

(** [fraction = clamp(scrollStart / scrollRange, 0, 1)] with
    [scrollStart = -stickyTop], [scrollRange = scrollHeight - contentHeight]. *)
Definition spec_horizontalFraction (stickyTop scrollHeight contentHeight : Q) : Q :=
  spec_clamp ((- stickyTop) / (scrollHeight - contentHeight)) 0 1.

(** [scrollStart = threshold - areaTop], [scrollRange = areaHeight - threshold],
    threshold 30% of the viewport height. *)
Definition spec_verticalFraction (areaTop areaHeight viewportHeight : Q) : Q :=
  spec_clamp ((viewportHeight * (3 # 10) - areaTop)
              / (areaHeight - viewportHeight * (3 # 10))) 0 1.

(** [scrollHeight = contentHeight + itemCount × scrollPerItem] *)
Definition spec_scrollHeight (contentHeight : Q) (itemCount : nat) (scrollPerItem : Q) : Q :=
  contentHeight + inject_Z (Z.of_nat itemCount) * scrollPerItem.

(** [targetTranslate = clamp(itemOffset - containerLength/2 + itemLength/2, 0, maxTranslate)]
    with [maxTranslate = max(0, trackLength - containerLength)]. *)
Definition spec_maxTranslate (trackLength containerLength : Q) : Q :=
  Qmax 0 (trackLength - containerLength).

Definition spec_targetTranslate (itemOffset itemLength containerLength trackLength : Q) : Q :=
  spec_clamp (itemOffset - containerLength / 2 + itemLength / 2)
             0 (spec_maxTranslate trackLength containerLength).

(** An index clamped into [[0, itemCount - 1]]. *)
Definition spec_clampIndex (i : Z) (itemCount : nat) : Z :=
  if (i <? 0)%Z then 0%Z
  else if (Z.of_nat itemCount - 1 <? i)%Z then (Z.of_nat itemCount - 1)%Z
  else i.

(** ** Missing targets *)

(** A target of the guarded block of [goToIndex] is missing when the block
    is entered with current index [c]. *)
Definition blockSkipped (e : env) (s : state) (c : Z) : Prop :=
  itemsContainer e = None \/ progressTrack e = None \/ itemsTrack s = false
  \/ trackItems e = []
  \/ nth_error (trackItems e) (Z.to_nat c) = None
  \/ nth_error (dots s) (Z.to_nat c) = None.

(** ** Sample pages used by the concrete evaluations below *)

(** Five items of width 400 laid out from 0 on a track 2000 wide; the dots
    are 16 wide and sit in the middle of their item. *)
Definition sampleItems : list itemBox :=
  [mkItemBox 0 400; mkItemBox 400 400; mkItemBox 800 400;
   mkItemBox 1200 400; mkItemBox 1600 400].

Definition sampleDotRect (i : nat) : rect :=
  mkRect (inject_Z (Z.of_nat i) * 400 + 192) 500 16 16.

(** A page of the given window width and viewport height whose sticky
    wrapper is 800 high. *)
Definition samplePage (windowWidth viewportHeight : Q) (spacer area : option rect)
           (track : option trackBox) (bar : option rect) (container : option Q) : env :=
  mkEnv windowWidth viewportHeight spacer (Some 800) area track bar container
        sampleItems 2000 sampleDotRect.

Definition sampleSpacer : rect := mkRect 0 (-500) 1280 2300.
Definition sampleArea : rect := mkRect 0 100 1280 600.
Definition sampleTrack : trackBox := mkTrackBox (mkRect 0 500 1000 4) 1000.
Definition sampleBar : rect := mkRect 0 500 1000 4.

Definition desktopPage : env :=
  samplePage 1280 800 (Some sampleSpacer) (Some sampleArea) (Some sampleTrack)
             (Some sampleBar) (Some 1000).

(** The same page with one target lost by the layout owner. *)
Definition pageWithoutSpacer : env :=
  samplePage 1280 800 None (Some sampleArea) (Some sampleTrack)
             (Some sampleBar) (Some 1000).

Definition pageWithoutItemsContainer : env :=
  samplePage 1280 800 (Some sampleSpacer) (Some sampleArea) (Some sampleTrack)
             (Some sampleBar) None.

Definition pageWithoutProgressContainer : env :=
  samplePage 1280 800 (Some sampleSpacer) (Some sampleArea) (Some sampleTrack)
             None (Some 1000).

(** A phone, 400 wide and 1000 high, without progress track. *)
Definition phoneWithoutProgressTrack : env :=
  samplePage 400 1000 (Some sampleSpacer) (Some sampleArea) None
             (Some sampleBar) (Some 400).

(** A phone whose timeline area, 300 high, has its top at the threshold. *)
Definition phoneAtThreshold : env :=
  samplePage 400 1000 (Some sampleSpacer) (Some (mkRect 0 300 400 300))
             (Some sampleTrack) (Some sampleBar) (Some 400).

(** The desktop window narrowed to 1024 pixels. *)
Definition narrowerPage : env :=
  samplePage 1024 768 (Some (mkRect 0 (-500) 1024 2300)) (Some (mkRect 0 100 1024 600))
             (Some (mkTrackBox (mkRect 0 500 800 4) 800)) (Some (mkRect 0 500 800 4))
             (Some 800).

Definition scrollSettings : settings := mkSettings (Fin 300) Scroll Horizontal.
Definition arrowSettings : settings := mkSettings (Fin 300) Arrows Horizontal.
Definition verticalSettings : settings := mkSettings (Fin 300) Scroll Vertical.

(** A five-item instance right after [init]. *)
Definition scrollInstance : state := init scrollSettings (Some 5%nat) true desktopPage.
Definition arrowInstance : state := init arrowSettings (Some 5%nat) true desktopPage.
Definition verticalInstance : state := init verticalSettings (Some 5%nat) true desktopPage.

(** ** Proof automation for the passes *)

(** Case analysis on the innermost scrutinee of the goal. *)
Ltac break_match :=
  match goal with
  | |- context [match ?x with _ => _ end] =>
      lazymatch x with
      | context [match _ with _ => _ end] => fail
      | _ => destruct x eqn:?
      end
  end.

Ltac unfold_passes :=
  unfold resizeArrows, resizeScroll, goNext, goPrev, goToIndex, andThen,
    centerCurrentItem, updateArrowStates, updateTimeline, updateTimelineVertical,
    updateTimelineHorizontal, calculateDimensions, moveTracks, destroy.

Ltac frame :=
  intros; repeat match goal with x := _ |- _ => subst x end; unfold_passes;
  repeat break_match; simpl in *; repeat split; try congruence; auto.

(** The label track cannot be missing while the item track is there. *)
Ltac locked_contra Hp :=
  match goal with
  | H : itemsTrack _ = true |- _ => rewrite (Hp H) in *; discriminate
  | H : itemsTrack _ && _ = true |- _ =>
      apply andb_prop in H; destruct H as [H _]; rewrite (Hp H) in *; discriminate
  end.

(** ** Events composed from a given state *)

Inductive reachableFrom (cfg : settings) (s0 : state) : state -> Prop :=
| from_here : reachableFrom cfg s0 s0
| from_fire (s : state) (e : env) (ev : event) :
    reachableFrom cfg s0 s -> reachableFrom cfg s0 (final (fire cfg e ev s)).

(** An instance without layout: never built, or torn down. *)
Definition inert (s : state) : Prop := itemsTrack s = false /\ dots s = [].

(** The transforms and the fill of [s'] are those of [s]. *)
Definition sameDisplay (s s' : state) : Prop :=
  itemsTransform s' = itemsTransform s /\ labelsTransform s' = labelsTransform s
  /\ fillWidth s' = fillWidth s /\ fillHeight s' = fillHeight s.

(** The current index of an instance: in range, and 0 without items. *)
Definition indexWellFormed (s : state) : Prop :=
  match data s with
  | Some (S k) => (0 <= currentIndex s <= Z.of_nat (S k) - 1)%Z
  | _ => currentIndex s = 0%Z
  end.

(** A finite number between two bounds. *)
Definition between (lo hi : Q) (x : num) : Prop :=
  match x with
  | Fin q => lo <= q <= hi
  | _ => False
  end.

(** ** The scroll handler of [bindEvents] (lines 608-617)

    [ticking] is the variable of the closure; [frames] counts the callbacks
    the handler has passed to [requestAnimationFrame] and that have not run
    yet. *)
Record scrollWorld : Type := mkScrollWorld {
  instance : state;
  ticking : bool;
  frames : nat
}.

(** [this.boundHandleScroll] *)
Definition boundHandleScroll (w : scrollWorld) : scrollWorld :=
  if ticking w then w
  else mkScrollWorld (instance w) true (S (frames w)).

(** The callback given to [requestAnimationFrame]: in scroll mode it runs
    [updateTimeline]; in arrow mode (lines 590-598) only in the vertical
    mobile layout. *)
Definition frameCallback (cfg : settings) (e : env) (s : state) : state :=
  match navigationType cfg with
  | Scroll => updateTimeline cfg e s
  | Arrows => if isVerticalMobile cfg e then updateTimeline cfg e s else s
  end.

(** The browser runs one queued callback, if there is one. *)
Definition animationFrame (cfg : settings) (e : env) (w : scrollWorld) : scrollWorld :=
  match frames w with
  | O => w
  | S k => mkScrollWorld (frameCallback cfg e (instance w)) false k
  end.

(** No scroll event is waiting for its frame. *)
Definition idle (s : state) : scrollWorld := mkScrollWorld s false 0.

Inductive scrollTick : Type :=
| Scrolled
| Frame (e : env).

Definition scrollStep (cfg : settings) (w : scrollWorld) (t : scrollTick) : scrollWorld :=
  match t with
  | Scrolled => boundHandleScroll w
  | Frame e => animationFrame cfg e w
  end.

Definition scrollRun (cfg : settings) (w : scrollWorld) (trace : list scrollTick) : scrollWorld :=
  fold_left (scrollStep cfg) trace w.

(** The number of callbacks a trace runs. *)
Fixpoint callbacksRun (cfg : settings) (w : scrollWorld) (trace : list scrollTick) : nat :=
  match trace with
  | [] => O
  | t :: trace' =>
      (match t, frames w with
       | Frame _, S _ => 1
       | _, _ => 0
       end + callbacksRun cfg (scrollStep cfg w t) trace')%nat
  end.

Fixpoint countScrolled (trace : list scrollTick) : nat :=
  match trace with
  | [] => O
  | Scrolled :: trace' => S (countScrolled trace')
  | Frame _ :: trace' => countScrolled trace'
  end.

(** ** The debounced resize handler of [bindEvents] (lines 568-582, 620-627)

    [resizeTimeout] is the variable of the closure, [pending] the identifiers
    of the timers that are set and have not fired, [nextTimer] the identifier
    [setTimeout] returns next. *)
Record resizeWorld : Type := mkResizeWorld {
  resized : state;
  resizeTimeout : option nat;
  pending : list nat;
  nextTimer : nat
}.

(** [clearTimeout(id)]; an undefined or stale identifier clears nothing. *)
Definition clearTimeout (id : option nat) (timers : list nat) : list nat :=
  match id with
  | Some i => filter (fun j => negb (Nat.eqb j i)) timers
  | None => timers
  end.

(** [this.boundHandleResize] *)
Definition boundHandleResize (w : resizeWorld) : resizeWorld :=
  mkResizeWorld (resized w) (Some (nextTimer w))
                (nextTimer w :: clearTimeout (resizeTimeout w) (pending w))
                (S (nextTimer w)).

(** The body of the timer, by navigation mode. *)
Definition resizeCallback (cfg : settings) (e : env) (s : state) : state :=
  match navigationType cfg with
  | Scroll => resizeScroll cfg e s
  | Arrows => final (resizeArrows cfg e s)
  end.

(** The timer [id] fires, if it is pending. *)
Definition timerFires (cfg : settings) (e : env) (id : nat) (w : resizeWorld) : resizeWorld :=
  if existsb (Nat.eqb id) (pending w) then
    mkResizeWorld (resizeCallback cfg e (resized w)) (resizeTimeout w)
                  (clearTimeout (Some id) (pending w)) (nextTimer w)
  else w.

(** No resize event has been seen yet. *)
Definition quiet (s : state) : resizeWorld := mkResizeWorld s None [] 0.

(** At most one timer is pending, and it is the one [resizeTimeout] names. *)
Definition debounced (w : resizeWorld) : Prop :=
  pending w = [] \/ exists id, resizeTimeout w = Some id /\ pending w = [id].

Inductive resizeTick : Type :=
| Resized
| TimerFired (e : env) (id : nat).

Definition resizeStep (cfg : settings) (w : resizeWorld) (t : resizeTick) : resizeWorld :=
  match t with
  | Resized => boundHandleResize w
  | TimerFired e id => timerFires cfg e id w
  end.

Definition resizeRun (cfg : settings) (w : resizeWorld) (trace : list resizeTick) : resizeWorld :=
  fold_left (resizeStep cfg) trace w.

(** ** Title and label of an item ([buildTimelineItem], lines 270-277)

    A string is its list of UTF-16 code units. *)
Definition str : Type := list N.

Definition LBRACKET : N := 91.
Definition RBRACKET : N := 93.
Definition SPACE : N := 32.

(** The class [\s] of a regular expression, which is also what [trim]
    removes: white space and line terminators. *)
Definition isWhiteSpace (c : N) : bool :=
  ((9 <=? c) && (c <=? 13) || (c =? 32) || (c =? 160) || (c =? 5760)
   || (8192 <=? c) && (c <=? 8202) || (c =? 8232) || (c =? 8233)
   || (c =? 8239) || (c =? 8287) || (c =? 12288) || (c =? 65279))%N.

Definition notRBracket (c : N) : bool := negb (c =? RBRACKET)%N.

(** The longest prefix whose characters satisfy [p], and the rest. *)
Fixpoint span (p : N -> bool) (s : str) : str * str :=
  match s with
  | [] => ([], [])
  | c :: r =>
      if p c then let (a, b) := span p r in (c :: a, b) else ([], s)
  end.

(** [/\[([^\]]+)\]/] matched at the head of [s]: the captured group and what
    follows the match.  The greedy [[^\]]+] stops at the first closing
    bracket or at the end, and no shorter run can be followed by one. *)
Definition matchGroupAt (s : str) : option (str * str) :=
  match s with
  | c :: r =>
      if (c =? LBRACKET)%N then
        match span notRBracket r with
        | ((_ :: _) as group, d :: rest) =>
            if (d =? RBRACKET)%N then Some (group, rest) else None
        | _ => None
        end
      else None
  | [] => None
  end.

(** [titleText.match(/\[([^\]]+)\]/)]: the group of the leftmost match. *)
Fixpoint labelMatch (s : str) : option str :=
  match matchGroupAt s with
  | Some (group, _) => Some group
  | None =>
      match s with
      | [] => None
      | _ :: r => labelMatch r
      end
  end.

(** [/\s*\[[^\]]+\]\s*/] matched at the head of [s]: what follows the match.
    The greedy [\s*] takes all the white space; with less of it the next
    character would be white space and not the opening bracket. *)
Definition matchSpacedGroupAt (s : str) : option str :=
  match matchGroupAt (snd (span isWhiteSpace s)) with
  | Some (_, rest) => Some (snd (span isWhiteSpace rest))
  | None => None
  end.

(** [titleText.replace(/\s*\[[^\]]+\]\s*/, ' ')]: the leftmost match, once. *)
Fixpoint replaceGroup (s : str) : str :=
  match matchSpacedGroupAt s with
  | Some rest => SPACE :: rest
  | None =>
      match s with
      | [] => []
      | c :: r => c :: replaceGroup r
      end
  end.

(** [String.prototype.trim] *)
Definition trimStart (s : str) : str := snd (span isWhiteSpace s).

Fixpoint trimEnd (s : str) : str :=
  match s with
  | [] => []
  | c :: r => if forallb isWhiteSpace s then [] else c :: trimEnd r
  end.

Definition trim (s : str) : str := trimEnd (trimStart s).

(** Lines 271-277: [(titleText, labelText)] for the title of an item, the
    empty string standing for a missing title ([item.title || '']). *)
Definition titleAndLabel (title : str) : str * str :=
  match labelMatch title with
  | Some labelText => (trim (replaceGroup title), labelText)
  | None => (title, [])
  end.

(** "Founded [1999]" *)
Definition sampleTitle : str :=
  [70; 111; 117; 110; 100; 101; 100; 32; 91; 49; 57; 57; 57; 93]%N.

(** "Founded" *)
Definition sampleTitleText : str := [70; 111; 117; 110; 100; 101; 100]%N.

(** "1999" *)
Definition sampleLabel : str := [49; 57; 57; 57]%N.

(** Reduction of the field writes. *)
Ltac state_cbn :=
  cbn [data itemsTrack labelsTrack progressFill dots scrollHeight currentIndex
       prevButton nextButton spacerHeight itemsTransform labelsTransform fillWidth
       fillHeight setCurrentIndex setItemsTransform setLabelsTransform setFillWidth
       setFillHeight setDots setButtons setScrollHeight setSpacerHeight final andb orb negb]
      in *.

(* ================================================================== *)
(** * Part II: properties *)
(* ================================================================== *)

(** ** Facts about JavaScript numbers *)

Section NumberFacts.

Lemma same_refl (x : num) : x =n= x.
Proof. destruct x; simpl; auto. reflexivity. Qed.

Lemma same_sym (x y : num) : x =n= y -> y =n= x.
Proof. destruct x, y; simpl; auto. intros H; symmetry; exact H. Qed.

Lemma same_trans (x y z : num) : x =n= y -> y =n= z -> x =n= z.
Proof.
  destruct x, y, z; simpl; auto; try contradiction.
  intros H1 H2; rewrite H1; exact H2.
Qed.

Lemma le_Fin (p q : Q) : JS.le (Fin p) (Fin q) = true <-> p <= q.
Proof. simpl. apply Qle_bool_iff. Qed.

Lemma le_Fin_false (p q : Q) : JS.le (Fin p) (Fin q) = false <-> q < p.
Proof.
  simpl. split; intros H.
  - apply Qnot_le_lt. intros Hle. apply Qle_bool_iff in Hle. congruence.
  - destruct (Qle_bool p q) eqn:E; auto.
    apply Qle_bool_iff in E. exfalso. apply (Qlt_not_le _ _ H E).
Qed.

Lemma le_same (x x' y y' : num) :
  x =n= x' -> y =n= y' -> JS.le x y = JS.le x' y'.
Proof.
  destruct x, x', y, y'; simpl; try contradiction; auto.
  intros H1 H2. rewrite H1, H2. reflexivity.
Qed.

Lemma lt_same (x x' y y' : num) :
  x =n= x' -> y =n= y' -> JS.lt x y = JS.lt x' y'.
Proof.
  destruct x, x', y, y'; simpl; try contradiction; auto.
  intros H1 H2. rewrite H1, H2. reflexivity.
Qed.

Lemma lt_Fin_false (p q : Q) : JS.lt (Fin p) (Fin q) = false <-> q <= p.
Proof.
  simpl. rewrite negb_false_iff. apply Qle_bool_iff.
Qed.

Lemma max_Fin (p q : Q) : JS.max (Fin p) (Fin q) =n= Fin (Qmax p q).
Proof.
  simpl. destruct (Qle_bool p q) eqn:E; simpl.
  - apply Qle_bool_iff in E. symmetry. apply Q.max_r; exact E.
  - apply le_Fin_false in E. symmetry. apply Q.max_l. apply Qlt_le_weak; exact E.
Qed.

Lemma min_Fin (p q : Q) : JS.min (Fin p) (Fin q) =n= Fin (Qmin p q).
Proof.
  simpl. destruct (Qle_bool p q) eqn:E; simpl.
  - apply Qle_bool_iff in E. symmetry. apply Q.min_l; exact E.
  - apply le_Fin_false in E. symmetry. apply Q.min_r. apply Qlt_le_weak; exact E.
Qed.

Lemma max_same (x x' y y' : num) :
  x =n= x' -> y =n= y' -> JS.max x y =n= JS.max x' y'.
Proof.
  intros Hx Hy. pose proof (le_same _ _ _ _ Hx Hy) as Hle.
  destruct x, x', y, y'; simpl in *; try contradiction; auto;
    rewrite Hle; clear Hle; destruct (Qle_bool _ _); simpl; auto.
Qed.

Lemma min_same (x x' y y' : num) :
  x =n= x' -> y =n= y' -> JS.min x y =n= JS.min x' y'.
Proof.
  intros Hx Hy. pose proof (le_same _ _ _ _ Hx Hy) as Hle.
  destruct x, x', y, y'; simpl in *; try contradiction; auto;
    rewrite Hle; clear Hle; destruct (Qle_bool _ _); simpl; auto.
Qed.

Lemma div_Fin (p q : Q) : ~ q == 0 -> JS.div (Fin p) (Fin q) = Fin (p / q).
Proof.
  intros Hq. simpl. destruct (Qeq_bool q 0) eqn:E; auto.
  apply Qeq_bool_iff in E. contradiction.
Qed.

Lemma div_Fin_zero (p q : Q) :
  q == 0 ->
  JS.div (Fin p) (Fin q) =
  match p ?= 0 with Eq => NaN | Gt => PInf | Lt => NInf end.
Proof.
  intros Hq. simpl. apply Qeq_bool_iff in Hq. rewrite Hq. reflexivity.
Qed.

Lemma inUnit_same (x y : num) : x =n= y -> inUnit x -> inUnit y.
Proof.
  destruct x, y; simpl; try contradiction; auto.
  intros H [H0 H1]. rewrite <- H. split; assumption.
Qed.

Lemma spec_clamp_bounds (x lo hi : Q) :
  lo <= hi -> lo <= spec_clamp x lo hi <= hi.
Proof.
  intros H. unfold spec_clamp. split.
  - apply Q.le_max_l.
  - apply Q.max_lub; [exact H | apply Q.le_min_l].
Qed.

Lemma spec_clamp_monotone (x y lo hi : Q) :
  x <= y -> spec_clamp x lo hi <= spec_clamp y lo hi.
Proof.
  intros H. unfold spec_clamp.
  apply Q.max_le_compat_l. apply Q.min_le_compat_l. exact H.
Qed.

Lemma Qdiv_le_compat_r (a b r : Q) : 0 < r -> a <= b -> a / r <= b / r.
Proof.
  intros Hr Hab. unfold Qdiv. apply Qmult_le_compat_r; auto.
  apply Qlt_le_weak, Qinv_lt_0_compat, Hr.
Qed.

End NumberFacts.

(** ** The Progress Mapper on finite geometry *)

Section ProgressMapper.

(** With a non-zero range the code computes the clamped ratio. *)
Lemma progressOf_ratio (start range : Q) :
  ~ range == 0 ->
  progressOf (Fin start) (Fin range) =n= Fin (spec_clamp (start / range) 0 1).
Proof.
  intros Hr. unfold progressOf, spec_clamp. rewrite (div_Fin _ _ Hr).
  eapply same_trans; [ | apply max_Fin ].
  apply max_same; [apply same_refl | apply min_Fin].
Qed.

(** With a zero range the division leaves the finite numbers. *)
Lemma progressOf_zero_range (start range : Q) :
  range == 0 ->
  progressOf (Fin start) (Fin range) =
  match start ?= 0 with Eq => NaN | Gt => Fin 1 | Lt => Fin 0 end.
Proof.
  intros Hr. unfold progressOf. rewrite (div_Fin_zero _ _ Hr).
  destruct (start ?= 0); reflexivity.
Qed.

(** The fraction lies in the unit interval, except for 0/0. *)
Lemma progressOf_inUnit_or_NaN (start range : Q) :
  (start == 0 /\ range == 0 /\ progressOf (Fin start) (Fin range) = NaN)
  \/ (~ (start == 0 /\ range == 0) /\ inUnit (progressOf (Fin start) (Fin range))).
Proof.
  destruct (Qeq_dec range 0) as [Hr | Hr].
  - rewrite (progressOf_zero_range _ _ Hr).
    destruct (Qcompare_spec start 0) as [H | H | H].
    + left. auto.
    + right. split; [ | simpl; split; lra ].
      intros [H0 _]. rewrite H0 in H. lra.
    + right. split; [ | simpl; split; lra ].
      intros [H0 _]. rewrite H0 in H. lra.
  - right. split; [ tauto | ].
    eapply inUnit_same; [ apply same_sym, progressOf_ratio, Hr | ].
    simpl. apply spec_clamp_bounds. lra.
Qed.

Lemma horizontalProgress_Fin (rectTop sh ch : Q) :
  horizontalProgress (Fin rectTop) (Fin sh) (Fin ch) =
  progressOf (Fin (- rectTop)) (Fin (sh + - ch)).
Proof. reflexivity. Qed.

Lemma verticalProgress_Fin (areaTop ah vh : Q) :
  verticalProgress (Fin areaTop) (Fin ah) (Fin vh) =
  progressOf (Fin (vh * (3 # 10) + - areaTop)) (Fin (ah + - (vh * (3 # 10)))).
Proof. reflexivity. Qed.

(** What the mapper yields on a degenerate range. *)
Lemma progressOf_degenerate (start range : Q) :
  (range < 0 ->
     progressOf (Fin start) (Fin range) =n= Fin (spec_clamp (start / range) 0 1)
     /\ (progressOf (Fin start) (Fin range) =n= Fin 0 <-> 0 <= start))
  /\ (range == 0 -> start < 0 -> progressOf (Fin start) (Fin range) =n= Fin 0)
  /\ (range == 0 -> 0 < start -> progressOf (Fin start) (Fin range) =n= Fin 1).
Proof.
  split; [ | split ].
  - intros Hr.
    assert (Hn : ~ range == 0) by (intros H0; rewrite H0 in Hr; lra).
    pose proof (progressOf_ratio start range Hn) as Hp.
    split; [exact Hp | ].
    assert (Hinv : / range < 0).
    { setoid_replace (/ range) with (- / (- range)).
      - assert (0 < / (- range)) by (apply Qinv_lt_0_compat; lra). lra.
      - field. exact Hn. }
    split.
    + intros Hz.
      assert (Hc : spec_clamp (start / range) 0 1 == 0).
      { pose proof (same_trans _ _ _ (same_sym _ _ Hp) Hz) as H. exact H. }
      unfold spec_clamp in Hc.
      destruct (Qlt_le_dec start 0) as [Hs | Hs]; [ exfalso | exact Hs ].
      assert (Hpos : 0 < start / range).
      { unfold Qdiv. setoid_replace (start * / range) with ((- start) * (- / range)) by ring.
        apply Qmult_lt_0_compat; lra. }
      assert (0 < Qmin 1 (start / range)) by (apply Q.min_glb_lt; lra).
      pose proof (Q.le_max_r 0 (Qmin 1 (start / range))). lra.
    + intros Hs. eapply same_trans; [exact Hp | ]. simpl.
      unfold spec_clamp.
      assert (Hle : start / range <= 0).
      { unfold Qdiv.
        setoid_replace (start * / range) with (- (start * (- / range))) by ring.
        assert (0 <= start * (- / range)) by (apply Qmult_le_0_compat; lra). lra. }
      apply Q.max_l. eapply Qle_trans; [apply Q.le_min_r | exact Hle].
  - intros Hr Hs. rewrite (progressOf_zero_range _ _ Hr).
    destruct (Qcompare_spec start 0) as [H | H | H];
      [ exfalso; rewrite H in Hs; lra | apply same_refl | exfalso; lra ].
  - intros Hr Hs. rewrite (progressOf_zero_range _ _ Hr).
    destruct (Qcompare_spec start 0) as [H | H | H];
      [ exfalso; rewrite H in Hs; lra | exfalso; lra | apply same_refl ].
Qed.

(** With a fixed non-negative range a larger scroll start never gives a
    smaller fraction; with a positive range the two are ordered. *)
Lemma progressOf_monotone (start1 start2 range : Q) :
  start1 <= start2 ->
  (0 <= range ->
     JS.lt (progressOf (Fin start2) (Fin range))
           (progressOf (Fin start1) (Fin range)) = false)
  /\ (0 < range ->
     JS.le (progressOf (Fin start1) (Fin range))
           (progressOf (Fin start2) (Fin range)) = true).
Proof.
  intros Hs.
  assert (Hpos : 0 < range ->
            JS.le (progressOf (Fin start1) (Fin range))
                  (progressOf (Fin start2) (Fin range)) = true).
  { intros Hr.
    assert (Hn : ~ range == 0) by (intros H0; rewrite H0 in Hr; lra).
    rewrite (le_same _ _ _ _ (progressOf_ratio start1 range Hn)
                             (progressOf_ratio start2 range Hn)).
    apply le_Fin. apply spec_clamp_monotone. apply Qdiv_le_compat_r; assumption. }
  split; [ | exact Hpos ].
  intros Hr. destruct (Qeq_dec range 0) as [H0 | H0].
  - rewrite !(progressOf_zero_range _ _ H0).
    destruct (Qcompare_spec start1 0) as [H1 | H1 | H1];
      destruct (Qcompare_spec start2 0) as [H2 | H2 | H2];
      try reflexivity; exfalso; lra.
  - assert (Hr' : 0 < range).
    { destruct (Qlt_le_dec 0 range) as [Hl | Hl]; [exact Hl | ].
      exfalso. apply H0. lra. }
    specialize (Hpos Hr').
    destruct (progressOf (Fin start2) (Fin range)) eqn:E2;
      destruct (progressOf (Fin start1) (Fin range)) eqn:E1;
      simpl in *; try reflexivity; try discriminate.
    rewrite Hpos. reflexivity.
Qed.

End ProgressMapper.

(** ** Lists rewritten by [forEach] *)

Section ForEach.

Context {A B : Type}.

Lemma forEachFrom_length (f : nat -> A -> B) (l : list A) :
  forall k, length (forEachFrom f k l) = length l.
Proof. induction l as [ | x l IH]; intros k; simpl; [ | rewrite IH ]; reflexivity. Qed.

Lemma forEachFrom_nth_error (f : nat -> A -> B) (l : list A) :
  forall k i, nth_error (forEachFrom f k l) i = option_map (f (k + i)%nat) (nth_error l i).
Proof.
  induction l as [ | x l IH]; intros k i.
  - destruct i; reflexivity.
  - destruct i as [ | i]; simpl.
    + rewrite Nat.add_0_r. reflexivity.
    + rewrite IH. replace (S k + i)%nat with (k + S i)%nat by lia. reflexivity.
Qed.

Lemma forEach_length (f : nat -> A -> B) (l : list A) :
  length (forEach f l) = length l.
Proof. apply forEachFrom_length. Qed.

Lemma forEach_nth_error (f : nat -> A -> B) (l : list A) (i : nat) :
  nth_error (forEach f l) i = option_map (f i) (nth_error l i).
Proof. unfold forEach. rewrite forEachFrom_nth_error. reflexivity. Qed.

(** An element that does not depend on the old one is defined below the
    length. *)
Lemma forEach_const_nth_error (g : nat -> B) (l : list A) (i : nat) :
  nth_error (forEach (fun k _ => g k) l) i =
  if (i <? length l)%nat then Some (g i) else None.
Proof.
  rewrite forEach_nth_error.
  destruct (i <? length l)%nat eqn:E.
  - apply Nat.ltb_lt in E. destruct (nth_error l i) eqn:N; [reflexivity | ].
    apply nth_error_None in N. lia.
  - apply Nat.ltb_ge in E. apply nth_error_None in E. rewrite E. reflexivity.
Qed.

End ForEach.

(** ** The order of JavaScript numbers *)

Lemma le_trans_num (x y z : num) :
  JS.le x y = true -> JS.le y z = true -> JS.le x z = true.
Proof.
  destruct x, y, z; simpl; try discriminate; auto.
  intros H1 H2. apply Qle_bool_iff in H1. apply Qle_bool_iff in H2.
  apply Qle_bool_iff. eapply Qle_trans; eassumption.
Qed.

(** ** Frame properties of the passes *)

Section Frames.

Variables (cfg : settings) (e : env).

Lemma calculateDimensions_frame (s : state) :
  let s' := calculateDimensions cfg e s in
  data s' = data s /\ currentIndex s' = currentIndex s /\ dots s' = dots s
  /\ itemsTrack s' = itemsTrack s /\ labelsTrack s' = labelsTrack s
  /\ progressFill s' = progressFill s
  /\ itemsTransform s' = itemsTransform s /\ labelsTransform s' = labelsTransform s
  /\ fillWidth s' = fillWidth s /\ fillHeight s' = fillHeight s
  /\ prevButton s' = prevButton s /\ nextButton s' = nextButton s.
Proof. frame. Qed.

Lemma updateTimeline_frame (s : state) :
  let s' := updateTimeline cfg e s in
  data s' = data s /\ currentIndex s' = currentIndex s
  /\ itemsTrack s' = itemsTrack s /\ labelsTrack s' = labelsTrack s
  /\ progressFill s' = progressFill s
  /\ scrollHeight s' = scrollHeight s /\ spacerHeight s' = spacerHeight s
  /\ prevButton s' = prevButton s /\ nextButton s' = nextButton s.
Proof. frame. Qed.

Lemma goToIndex_frame (i : Z) (s : state) :
  let s' := final (goToIndex e i s) in
  data s' = data s
  /\ itemsTrack s' = itemsTrack s /\ labelsTrack s' = labelsTrack s
  /\ progressFill s' = progressFill s
  /\ scrollHeight s' = scrollHeight s /\ spacerHeight s' = spacerHeight s
  /\ fillHeight s' = fillHeight s.
Proof. frame. Qed.

(** [goToIndex] always leaves the clamped index in [currentIndex], also
    when it is left by an error. *)
Lemma goToIndex_currentIndex (i : Z) (s : state) (n : nat) :
  data s = Some (S n) ->
  currentIndex (final (goToIndex e i s)) = clampIndex i (S n).
Proof. intros H. unfold_passes. rewrite H. repeat break_match; simpl in *; congruence. Qed.

Lemma goToIndex_no_items (i : Z) (s : state) :
  data s = None \/ data s = Some O -> goToIndex e i s = Returns s.
Proof. intros [H | H]; unfold goToIndex; rewrite H; reflexivity. Qed.

End Frames.

Lemma clampIndex_spec (i : Z) (n : nat) :
  (0 < n)%nat -> clampIndex i n = spec_clampIndex i n.
Proof.
  intros Hn. unfold clampIndex, spec_clampIndex.
  destruct (Z.ltb_spec i 0); destruct (Z.ltb_spec (Z.of_nat n - 1) i); lia.
Qed.

Lemma clampIndex_range (i : Z) (n : nat) :
  (0 < n)%nat -> (0 <= clampIndex i n <= Z.of_nat n - 1)%Z.
Proof. intros Hn. unfold clampIndex. lia. Qed.

Lemma clampIndex_id (i : Z) (n : nat) :
  (0 <= i <= Z.of_nat n - 1)%Z -> clampIndex i n = i.
Proof. intros H. unfold clampIndex. lia. Qed.

(** ** Invariants of every reachable state *)

Section Invariants.

Variable cfg : settings.

Lemma moveTracks_locked (t : num) (s : state) :
  (itemsTrack s = true -> labelsTrack s = true) ->
  itemsTrack s = true ->
  itemsTransform (moveTracks t s) = Some t /\ labelsTransform (moveTracks t s) = Some t.
Proof.
  intros H Hi. unfold moveTracks. simpl. rewrite (H Hi). simpl. auto.
Qed.

Lemma init_tracksLocked found cw e : tracksLocked (init cfg found cw e).
Proof.
  unfold tracksLocked, init.
  destruct (calculateDimensions_frame cfg e
              (buildLayout cfg cw (extractData found newInstance)))
    as (_ & _ & _ & Hi & Hl & _ & Hit & Hlt & _).
  rewrite Hi, Hl, Hit, Hlt.
  unfold buildLayout, extractData; simpl.
  destruct found as [ [ | n] | ]; simpl; auto. destruct cw; simpl; auto.
Qed.

Lemma updateTimeline_tracksLocked e s :
  tracksLocked s -> tracksLocked (updateTimeline cfg e s).
Proof.
  intros [Hp Ht]. unfold tracksLocked.
  destruct (updateTimeline_frame cfg e s) as (_ & _ & Hi & Hl & _).
  rewrite Hi, Hl. split; [exact Hp | ].
  unfold_passes. repeat break_match; simpl in *; auto; try congruence.
  all: locked_contra Hp.
Qed.

Lemma goToIndex_tracksLocked e i s :
  tracksLocked s -> tracksLocked (final (goToIndex e i s)).
Proof.
  intros [Hp Ht]. unfold tracksLocked.
  destruct (goToIndex_frame e i s) as (_ & Hi & Hl & _).
  rewrite Hi, Hl. split; [exact Hp | ].
  unfold_passes. repeat break_match; simpl in *; auto; try congruence.
  all: locked_contra Hp.
Qed.

End Invariants.

Section Reachability.

Variable cfg : settings.

Lemma calculateDimensions_tracksLocked e s :
  tracksLocked s -> tracksLocked (calculateDimensions cfg e s).
Proof.
  intros [Hp Ht]. unfold tracksLocked.
  destruct (calculateDimensions_frame cfg e s)
    as (_ & _ & _ & Hi & Hl & _ & Hit & Hlt & _).
  rewrite Hi, Hl, Hit, Hlt. auto.
Qed.

Lemma destroy_tracksLocked s : tracksLocked s -> tracksLocked (destroy s).
Proof. intros [Hp Ht]. split; simpl; [ discriminate | exact Ht ]. Qed.

Lemma fire_tracksLocked e ev s :
  tracksLocked s -> tracksLocked (final (fire cfg e ev s)).
Proof.
  intros H. destruct ev; simpl.
  - apply updateTimeline_tracksLocked, H.
  - apply calculateDimensions_tracksLocked, H.
  - apply goToIndex_tracksLocked, H.
  - unfold goNext. destruct (data s); [ | exact H ].
    destruct (currentIndex s <? _)%Z; [ apply goToIndex_tracksLocked | ]; exact H.
  - unfold goPrev.
    destruct (0 <? currentIndex s)%Z; [ apply goToIndex_tracksLocked | ]; exact H.
  - unfold resizeArrows. destruct (isVerticalMobile cfg e); simpl.
    + apply updateTimeline_tracksLocked, calculateDimensions_tracksLocked, H.
    + apply goToIndex_tracksLocked, calculateDimensions_tracksLocked, H.
  - unfold resizeScroll.
    apply updateTimeline_tracksLocked, calculateDimensions_tracksLocked, H.
  - apply destroy_tracksLocked, H.
Qed.

Lemma reachable_tracksLocked s : reachable cfg s -> tracksLocked s.
Proof.
  induction 1 as [found cw e | s e ev _ IH].
  - apply init_tracksLocked.
  - apply fire_tracksLocked, IH.
Qed.

(** *** The current index stays in range *)

Lemma indexInRange_transfer (s s' : state) :
  data s' = data s -> currentIndex s' = currentIndex s ->
  indexInRange s -> indexInRange s'.
Proof. unfold indexInRange. intros -> ->. auto. Qed.

Lemma buildLayout_frame cw s :
  data (buildLayout cfg cw s) = data s
  /\ currentIndex (buildLayout cfg cw s) = currentIndex s.
Proof.
  unfold buildLayout. destruct (data s) as [ [ | n] | ] eqn:D; auto.
  destruct cw; simpl; auto.
Qed.

Lemma init_indexInRange found cw e : indexInRange (init cfg found cw e).
Proof.
  unfold init.
  destruct (calculateDimensions_frame cfg e
              (buildLayout cfg cw (extractData found newInstance)))
    as (Hd & Hc & _).
  destruct (buildLayout_frame cw (extractData found newInstance)) as (Hd' & Hc').
  unfold indexInRange. rewrite Hd, Hc, Hd', Hc'. simpl.
  destruct found; [ lia | exact I ].
Qed.

Lemma goToIndex_indexInRange e i s :
  indexInRange s -> indexInRange (final (goToIndex e i s)).
Proof.
  intros H. destruct (data s) as [ [ | n] | ] eqn:D.
  - rewrite goToIndex_no_items by auto. exact H.
  - unfold indexInRange.
    destruct (goToIndex_frame e i s) as (Hd & _). rewrite Hd, D.
    rewrite (goToIndex_currentIndex e i s n D). intros _.
    apply clampIndex_range. lia.
  - rewrite goToIndex_no_items by auto. exact H.
Qed.

Lemma updateTimeline_indexInRange e s :
  indexInRange s -> indexInRange (updateTimeline cfg e s).
Proof.
  destruct (updateTimeline_frame cfg e s) as (Hd & Hc & _).
  apply indexInRange_transfer; assumption.
Qed.

Lemma calculateDimensions_indexInRange e s :
  indexInRange s -> indexInRange (calculateDimensions cfg e s).
Proof.
  destruct (calculateDimensions_frame cfg e s) as (Hd & Hc & _).
  apply indexInRange_transfer; assumption.
Qed.

Lemma fire_indexInRange e ev s :
  indexInRange s -> indexInRange (final (fire cfg e ev s)).
Proof.
  intros H. destruct ev; simpl.
  - apply updateTimeline_indexInRange, H.
  - apply calculateDimensions_indexInRange, H.
  - apply goToIndex_indexInRange, H.
  - unfold goNext. destruct (data s) eqn:D; [ | exact H ].
    destruct (currentIndex s <? _)%Z; [ apply goToIndex_indexInRange | ]; exact H.
  - unfold goPrev.
    destruct (0 <? currentIndex s)%Z; [ apply goToIndex_indexInRange | ]; exact H.
  - unfold resizeArrows. destruct (isVerticalMobile cfg e); simpl.
    + apply updateTimeline_indexInRange, calculateDimensions_indexInRange, H.
    + apply goToIndex_indexInRange, calculateDimensions_indexInRange, H.
  - unfold resizeScroll.
    apply updateTimeline_indexInRange, calculateDimensions_indexInRange, H.
  - exact H.
Qed.

Lemma reachable_indexInRange s : reachable cfg s -> indexInRange s.
Proof.
  induction 1 as [found cw e | s e ev _ IH].
  - apply init_indexInRange.
  - apply fire_indexInRange, IH.
Qed.

(** *** The layout stays consistent *)

Lemma updateTimeline_dots_length e s :
  length (dots (updateTimeline cfg e s)) = length (dots s).
Proof.
  unfold_passes. repeat break_match; simpl;
    unfold syncDotsX, syncDotsY; rewrite ?forEach_length; reflexivity.
Qed.

Lemma goToIndex_dots_length e i s :
  length (dots (final (goToIndex e i s))) = length (dots s).
Proof.
  unfold_passes. repeat break_match; simpl;
    unfold syncDotsByIndex; rewrite ?forEach_length; reflexivity.
Qed.

Lemma layoutConsistent_transfer (s s' : state) :
  itemsTrack s' = itemsTrack s -> labelsTrack s' = labelsTrack s ->
  progressFill s' = progressFill s -> data s' = data s ->
  length (dots s') = length (dots s) ->
  layoutConsistent s -> layoutConsistent s'.
Proof. unfold layoutConsistent. intros -> -> -> -> ->. auto. Qed.

Lemma init_layoutConsistent found cw e : layoutConsistent (init cfg found cw e).
Proof.
  unfold init.
  destruct (calculateDimensions_frame cfg e
              (buildLayout cfg cw (extractData found newInstance)))
    as (Hd & _ & Hdots & Hi & Hl & Hp & _).
  unfold layoutConsistent. rewrite Hd, Hdots, Hi, Hl, Hp.
  unfold buildLayout, extractData. cbn [data].
  destruct found as [ [ | n] | ]; try (simpl; discriminate).
  destruct cw; [ | simpl; discriminate ].
  intros _. cbn [labelsTrack progressFill data dots newInstance app].
  rewrite repeat_length. repeat split; auto. lia.
Qed.

Lemma updateTimeline_layoutConsistent e s :
  layoutConsistent s -> layoutConsistent (updateTimeline cfg e s).
Proof.
  destruct (updateTimeline_frame cfg e s) as (Hd & _ & Hi & Hl & Hp & _).
  apply layoutConsistent_transfer; auto using updateTimeline_dots_length.
Qed.

Lemma calculateDimensions_layoutConsistent e s :
  layoutConsistent s -> layoutConsistent (calculateDimensions cfg e s).
Proof.
  destruct (calculateDimensions_frame cfg e s) as (Hd & _ & Hdots & Hi & Hl & Hp & _).
  apply layoutConsistent_transfer; auto. rewrite Hdots. reflexivity.
Qed.

Lemma goToIndex_layoutConsistent e i s :
  layoutConsistent s -> layoutConsistent (final (goToIndex e i s)).
Proof.
  destruct (goToIndex_frame e i s) as (Hd & Hi & Hl & Hp & _).
  apply layoutConsistent_transfer; auto using goToIndex_dots_length.
Qed.

Lemma fire_layoutConsistent e ev s :
  layoutConsistent s -> layoutConsistent (final (fire cfg e ev s)).
Proof.
  intros H. destruct ev; simpl.
  - apply updateTimeline_layoutConsistent, H.
  - apply calculateDimensions_layoutConsistent, H.
  - apply goToIndex_layoutConsistent, H.
  - unfold goNext. destruct (data s) eqn:D; [ | exact H ].
    destruct (currentIndex s <? _)%Z; [ apply goToIndex_layoutConsistent | ]; exact H.
  - unfold goPrev.
    destruct (0 <? currentIndex s)%Z; [ apply goToIndex_layoutConsistent | ]; exact H.
  - unfold resizeArrows. destruct (isVerticalMobile cfg e); simpl.
    + apply updateTimeline_layoutConsistent, calculateDimensions_layoutConsistent, H.
    + apply goToIndex_layoutConsistent, calculateDimensions_layoutConsistent, H.
  - unfold resizeScroll.
    apply updateTimeline_layoutConsistent, calculateDimensions_layoutConsistent, H.
  - unfold layoutConsistent. simpl. discriminate.
Qed.

Lemma reachable_layoutConsistent s : reachable cfg s -> layoutConsistent s.
Proof.
  induction 1 as [found cw e | s e ev _ IH].
  - apply init_layoutConsistent.
  - apply fire_layoutConsistent, IH.
Qed.

(** The arrow-mode resize recomputation keeps an in-range index. *)
Lemma resizeArrows_keeps_index e s :
  indexInRange s ->
  currentIndex (final (resizeArrows cfg e s)) = currentIndex s.
Proof.
  intros H. unfold resizeArrows.
  destruct (calculateDimensions_frame cfg e s) as (Hd & Hc & _).
  destruct (isVerticalMobile cfg e); simpl.
  - destruct (updateTimeline_frame cfg e (calculateDimensions cfg e s)) as (_ & Hc' & _).
    congruence.
  - rewrite Hc. unfold indexInRange in H.
    destruct (data s) as [ [ | n] | ] eqn:D.
    + rewrite goToIndex_no_items by (rewrite Hd; auto). exact Hc.
    + rewrite (goToIndex_currentIndex e _ _ n) by congruence.
      apply clampIndex_id. apply H. lia.
    + rewrite goToIndex_no_items by (rewrite Hd; auto). exact Hc.
Qed.

(** On a reachable instance [goToIndex] is never left by an error: the fill
    is there whenever the item track is. *)
Lemma goToIndex_returns e i s : reachable cfg s -> threw (goToIndex e i s) = false.
Proof.
  intros Hr. pose proof (reachable_layoutConsistent s Hr) as Hl.
  unfold layoutConsistent in Hl.
  unfold_passes. repeat break_match; simpl in *; try reflexivity; try congruence.
  all: match goal with
       | Hb : itemsTrack _ && _ = true |- _ =>
           apply andb_prop in Hb; destruct Hb as [Hb _];
           destruct (Hl Hb) as (? & ? & _); congruence
       end.
Qed.

End Reachability.

(* ================================================================== *)
(** * Part III: the properties of the specification *)
(* ================================================================== *)

(** ** Progress Mapper *)

(** C4.  In horizontal scroll mode, for every geometry whose scroll range
    [scrollHeight - contentHeight] is positive, the code's scroll start is
    [-stickyTop], its scroll range is [scrollHeight - contentHeight], and the
    fraction is [clamp((-stickyTop) / scrollRange, 0, 1)]. *)
Theorem horizontal_fraction_is_clamped_ratio (stickyTop sh ch : Q) :
  0 < sh - ch ->
  horizontalScrollStart (Fin stickyTop) =n= Fin (- stickyTop)
  /\ horizontalScrollRange (Fin sh) (Fin ch) =n= Fin (sh - ch)
  /\ horizontalProgress (Fin stickyTop) (Fin sh) (Fin ch)
     =n= Fin (spec_horizontalFraction stickyTop sh ch).
Proof.
  intros Hr. split; [ | split ].
  - apply same_refl.
  - simpl. reflexivity.
  - rewrite horizontalProgress_Fin. unfold spec_horizontalFraction.
    assert (Hn : ~ sh + - ch == 0) by (intros H0; unfold Qminus in Hr; rewrite H0 in Hr; lra).
    apply (progressOf_ratio (- stickyTop) (sh + - ch) Hn).
Qed.

(** Scenario B: [stickyTop = -500], [scrollHeight = 2300],
    [contentHeight = 800] give the range 1500 and the fraction 1/3. *)
Lemma horizontal_fraction_scenario_B :
  0 < 2300 - 800
  /\ horizontalScrollRange (Fin 2300) (Fin 800) =n= Fin 1500
  /\ horizontalProgress (Fin (-500)) (Fin 2300) (Fin 800) =n= Fin (1 # 3).
Proof.
  assert (H : 0 < 2300 - 800) by reflexivity.
  destruct (horizontal_fraction_is_clamped_ratio (-500) 2300 800 H) as (_ & Hr & Hp).
  split; [ exact H | split ].
  - eapply same_trans; [ exact Hr | reflexivity ].
  - eapply same_trans; [ exact Hp | reflexivity ].
Defined.

(** C1, as the code has it.  No rule sets the fraction to 0 on a degenerate
    range.  With a negative range the fraction is still the clamped ratio,
    which is 0 exactly when the scroll start is not negative; with a zero
    range it is 0 for a negative scroll start and 1 for a positive one.
    Stated for both orientations. *)
Theorem degenerate_range_fraction (stickyTop sh ch areaTop ah vh : Q) :
  (sh - ch < 0 ->
     horizontalProgress (Fin stickyTop) (Fin sh) (Fin ch)
     =n= Fin (spec_horizontalFraction stickyTop sh ch)
     /\ (horizontalProgress (Fin stickyTop) (Fin sh) (Fin ch) =n= Fin 0
         <-> 0 <= - stickyTop))
  /\ (sh - ch == 0 -> - stickyTop < 0 ->
        horizontalProgress (Fin stickyTop) (Fin sh) (Fin ch) =n= Fin 0)
  /\ (sh - ch == 0 -> 0 < - stickyTop ->
        horizontalProgress (Fin stickyTop) (Fin sh) (Fin ch) =n= Fin 1)
  /\ (ah - vh * (3 # 10) < 0 ->
        verticalProgress (Fin areaTop) (Fin ah) (Fin vh)
        =n= Fin (spec_verticalFraction areaTop ah vh)
        /\ (verticalProgress (Fin areaTop) (Fin ah) (Fin vh) =n= Fin 0
            <-> 0 <= vh * (3 # 10) - areaTop))
  /\ (ah - vh * (3 # 10) == 0 -> vh * (3 # 10) - areaTop < 0 ->
        verticalProgress (Fin areaTop) (Fin ah) (Fin vh) =n= Fin 0)
  /\ (ah - vh * (3 # 10) == 0 -> 0 < vh * (3 # 10) - areaTop ->
        verticalProgress (Fin areaTop) (Fin ah) (Fin vh) =n= Fin 1).
Proof.
  rewrite horizontalProgress_Fin, verticalProgress_Fin.
  unfold spec_horizontalFraction, spec_verticalFraction, Qminus.
  destruct (progressOf_degenerate (- stickyTop) (sh + - ch)) as (Hneg & Hz0 & Hz1).
  destruct (progressOf_degenerate (vh * (3 # 10) + - areaTop) (ah + - (vh * (3 # 10))))
    as (Vneg & Vz0 & Vz1).
  repeat split; auto; try (apply Hneg; assumption); try (apply Vneg; assumption).
Qed.

Lemma degenerate_range_fraction_witness :
  (0 - 800 < 0 /\ 0 <= - (-100)
   /\ horizontalProgress (Fin (-100)) (Fin 0) (Fin 800) =n= Fin 0)
  /\ (800 - 800 == 0 /\ - 100 < 0
      /\ horizontalProgress (Fin 100) (Fin 800) (Fin 800) =n= Fin 0)
  /\ (800 - 800 == 0 /\ 0 < - (-500)
      /\ horizontalProgress (Fin (-500)) (Fin 800) (Fin 800) =n= Fin 1)
  /\ (200 - 1000 * (3 # 10) < 0 /\ 0 <= 1000 * (3 # 10) - 250
      /\ verticalProgress (Fin 250) (Fin 200) (Fin 1000) =n= Fin 0)
  /\ (300 - 1000 * (3 # 10) == 0 /\ 1000 * (3 # 10) - 400 < 0
      /\ verticalProgress (Fin 400) (Fin 300) (Fin 1000) =n= Fin 0)
  /\ (300 - 1000 * (3 # 10) == 0 /\ 0 < 1000 * (3 # 10) - 100
      /\ verticalProgress (Fin 100) (Fin 300) (Fin 1000) =n= Fin 1).
Proof.
  split; [ | split; [ | split; [ | split; [ | split ] ] ] ].
  - assert (H1 : 0 - 800 < 0) by reflexivity.
    assert (H2 : 0 <= - (-100)) by (vm_compute; discriminate).
    refine (conj H1 (conj H2 _)).
    destruct (degenerate_range_fraction (-100) 0 800 0 0 0) as (Hneg & _).
    apply (proj2 (Hneg H1)). exact H2.
  - assert (H1 : 800 - 800 == 0) by reflexivity.
    assert (H2 : - 100 < 0) by reflexivity.
    refine (conj H1 (conj H2 _)).
    destruct (degenerate_range_fraction 100 800 800 0 0 0) as (_ & Hz & _).
    exact (Hz H1 H2).
  - assert (H1 : 800 - 800 == 0) by reflexivity.
    assert (H2 : 0 < - (-500)) by reflexivity.
    refine (conj H1 (conj H2 _)).
    destruct (degenerate_range_fraction (-500) 800 800 0 0 0) as (_ & _ & Hz & _).
    exact (Hz H1 H2).
  - assert (H1 : 200 - 1000 * (3 # 10) < 0) by reflexivity.
    assert (H2 : 0 <= 1000 * (3 # 10) - 250) by (vm_compute; discriminate).
    refine (conj H1 (conj H2 _)).
    destruct (degenerate_range_fraction 0 0 0 250 200 1000) as (_ & _ & _ & Vneg & _).
    apply (proj2 (Vneg H1)). exact H2.
  - assert (H1 : 300 - 1000 * (3 # 10) == 0) by reflexivity.
    assert (H2 : 1000 * (3 # 10) - 400 < 0) by reflexivity.
    refine (conj H1 (conj H2 _)).
    destruct (degenerate_range_fraction 0 0 0 400 300 1000) as (_ & _ & _ & _ & Vz & _).
    exact (Vz H1 H2).
  - assert (H1 : 300 - 1000 * (3 # 10) == 0) by reflexivity.
    assert (H2 : 0 < 1000 * (3 # 10) - 100) by reflexivity.
    refine (conj H1 (conj H2 _)).
    destruct (degenerate_range_fraction 0 0 0 100 300 1000) as (_ & _ & _ & _ & _ & Vz).
    exact (Vz H1 H2).
Defined.

(** C1 as stated fails.  Vertical layout, viewport 1000 high (threshold
    300), timeline area 200 high with its top at 400: the range is -100 and
    the fraction is 1.  Horizontal layout, [scrollHeight = contentHeight = 800]
    with the spacer 500 above the viewport top: the range is 0 and the
    fraction is 1. *)
Lemma degenerate_range_fraction_not_zero :
  (JS.le (verticalScrollRange (Fin 200) (Fin 1000)) (Fin 0) = true
   /\ verticalProgress (Fin 400) (Fin 200) (Fin 1000) =n= Fin 1
   /\ ~ verticalProgress (Fin 400) (Fin 200) (Fin 1000) =n= Fin 0)
  /\ (JS.le (horizontalScrollRange (Fin 800) (Fin 800)) (Fin 0) = true
      /\ horizontalProgress (Fin (-500)) (Fin 800) (Fin 800) =n= Fin 1
      /\ ~ horizontalProgress (Fin (-500)) (Fin 800) (Fin 800) =n= Fin 0).
Proof.
  repeat split; try reflexivity; vm_compute; discriminate.
Qed.

(** C2 fails on 0/0.  Vertical layout, viewport 1000 high, timeline area 300
    high with its top at 300: scroll start and range are both 0 and the
    fraction is [NaN].  Horizontal layout, [scrollHeight = contentHeight = 800]
    with the spacer top at 0: the same.  The vertical pass then writes
    [NaN%] as the height of the fill. *)
Theorem progress_fraction_not_a_number :
  (verticalScrollStart (Fin 300) (Fin 1000) =n= Fin 0
   /\ verticalScrollRange (Fin 300) (Fin 1000) =n= Fin 0
   /\ verticalProgress (Fin 300) (Fin 300) (Fin 1000) = NaN
   /\ ~ inUnit (verticalProgress (Fin 300) (Fin 300) (Fin 1000)))
  /\ (horizontalScrollStart (Fin 0) =n= Fin 0
      /\ horizontalScrollRange (Fin 800) (Fin 800) =n= Fin 0
      /\ horizontalProgress (Fin 0) (Fin 800) (Fin 800) = NaN
      /\ ~ inUnit (horizontalProgress (Fin 0) (Fin 800) (Fin 800)))
  /\ fillHeight (updateTimeline verticalSettings phoneAtThreshold verticalInstance)
     = Some NaN.
Proof.
  repeat split; try reflexivity; vm_compute; auto.
Qed.

(** Everywhere else on finite geometry the clamp does its work: the fraction
    leaves the unit interval only as the [NaN] of 0/0. *)
Lemma horizontalProgress_inUnit (stickyTop sh ch : Q) :
  ~ (- stickyTop == 0 /\ sh - ch == 0) ->
  inUnit (horizontalProgress (Fin stickyTop) (Fin sh) (Fin ch)).
Proof.
  intros H. rewrite horizontalProgress_Fin.
  destruct (progressOf_inUnit_or_NaN (- stickyTop) (sh + - ch)) as [(H1 & H2 & _) | (_ & Hu)];
    [ exfalso; apply H; split; assumption | exact Hu ].
Qed.

Lemma verticalProgress_inUnit (areaTop ah vh : Q) :
  ~ (vh * (3 # 10) - areaTop == 0 /\ ah - vh * (3 # 10) == 0) ->
  inUnit (verticalProgress (Fin areaTop) (Fin ah) (Fin vh)).
Proof.
  intros H. rewrite verticalProgress_Fin.
  destruct (progressOf_inUnit_or_NaN (vh * (3 # 10) + - areaTop) (ah + - (vh * (3 # 10))))
    as [(H1 & H2 & _) | (_ & Hu)];
    [ exfalso; apply H; split; assumption | exact Hu ].
Qed.

(** C8, as the code has it.  The bounding rectangle of an element whose top
    is [pageTop] in the document has top [pageTop - scrollY] in the viewport.
    For a fixed geometry whose scroll range is not negative, a larger scroll
    offset never gives a smaller fraction, in both orientations; when the
    range is positive the two fractions are ordered by [<=]. *)
Theorem progress_monotone_in_scroll_offset (pageTop y1 y2 sh ch ah vh : Q) :
  y1 <= y2 ->
  (0 <= sh - ch ->
     JS.lt (horizontalProgress (Fin (pageTop - y2)) (Fin sh) (Fin ch))
           (horizontalProgress (Fin (pageTop - y1)) (Fin sh) (Fin ch)) = false)
  /\ (0 < sh - ch ->
     JS.le (horizontalProgress (Fin (pageTop - y1)) (Fin sh) (Fin ch))
           (horizontalProgress (Fin (pageTop - y2)) (Fin sh) (Fin ch)) = true)
  /\ (0 <= ah - vh * (3 # 10) ->
     JS.lt (verticalProgress (Fin (pageTop - y2)) (Fin ah) (Fin vh))
           (verticalProgress (Fin (pageTop - y1)) (Fin ah) (Fin vh)) = false)
  /\ (0 < ah - vh * (3 # 10) ->
     JS.le (verticalProgress (Fin (pageTop - y1)) (Fin ah) (Fin vh))
           (verticalProgress (Fin (pageTop - y2)) (Fin ah) (Fin vh)) = true).
Proof.
  intros Hy. rewrite !horizontalProgress_Fin, !verticalProgress_Fin.
  assert (Hh : - (pageTop - y1) <= - (pageTop - y2)) by lra.
  assert (Hv : vh * (3 # 10) + - (pageTop - y1) <= vh * (3 # 10) + - (pageTop - y2)) by lra.
  destruct (progressOf_monotone _ _ (sh + - ch) Hh) as (H0 & H1).
  destruct (progressOf_monotone _ _ (ah + - (vh * (3 # 10))) Hv) as (V0 & V1).
  repeat split; intros; auto.
Qed.

Lemma progress_monotone_in_scroll_offset_witness :
  400 <= 500
  /\ 0 <= 2300 - 800 /\ 0 < 2300 - 800
  /\ 0 <= 400 - 1000 * (3 # 10) /\ 0 < 400 - 1000 * (3 # 10)
  /\ JS.lt (horizontalProgress (Fin (0 - 500)) (Fin 2300) (Fin 800))
           (horizontalProgress (Fin (0 - 400)) (Fin 2300) (Fin 800)) = false
  /\ JS.le (horizontalProgress (Fin (0 - 400)) (Fin 2300) (Fin 800))
           (horizontalProgress (Fin (0 - 500)) (Fin 2300) (Fin 800)) = true
  /\ JS.lt (verticalProgress (Fin (0 - 500)) (Fin 400) (Fin 1000))
           (verticalProgress (Fin (0 - 400)) (Fin 400) (Fin 1000)) = false
  /\ JS.le (verticalProgress (Fin (0 - 400)) (Fin 400) (Fin 1000))
           (verticalProgress (Fin (0 - 500)) (Fin 400) (Fin 1000)) = true.
Proof.
  assert (Hy : 400 <= 500) by (vm_compute; discriminate).
  assert (A0 : 0 <= 2300 - 800) by (vm_compute; discriminate).
  assert (A1 : 0 < 2300 - 800) by reflexivity.
  assert (B0 : 0 <= 400 - 1000 * (3 # 10)) by (vm_compute; discriminate).
  assert (B1 : 0 < 400 - 1000 * (3 # 10)) by reflexivity.
  destruct (progress_monotone_in_scroll_offset 0 400 500 2300 800 400 1000 Hy)
    as (H0 & H1 & V0 & V1).
  repeat split; auto.
Defined.

(** C8 as stated fails on a negative range.  Vertical layout, viewport 1000
    high, timeline area 200 high (range -100) whose top is 1400 in the
    document: at scroll offset 1000 the fraction is 1, at 1100 it is 0. *)
Lemma progress_decreases_on_negative_range :
  1000 <= 1100
  /\ verticalProgress (Fin (1400 - 1000)) (Fin 200) (Fin 1000) =n= Fin 1
  /\ verticalProgress (Fin (1400 - 1100)) (Fin 200) (Fin 1000) =n= Fin 0
  /\ JS.lt (verticalProgress (Fin (1400 - 1100)) (Fin 200) (Fin 1000))
           (verticalProgress (Fin (1400 - 1000)) (Fin 200) (Fin 1000)) = true.
Proof.
  repeat split; try reflexivity. vm_compute; discriminate.
Qed.

(** ** Dot Synchronizer *)

(** In scroll mode the dots of a pass that reaches the dot loop are those of
    [syncDotsX] (horizontal) or [syncDotsY] (vertical) at the fraction of the
    Progress Mapper. *)
Lemma updateTimeline_horizontal_dots (cfg : settings) (e : env) (s : state)
      (rct bar : rect) :
  scrollSpacer e = Some rct -> itemsTrack s = true -> progressFill s = true ->
  isVerticalMobile cfg e = false -> progressContainer e = Some bar ->
  dots (updateTimeline cfg e s) =
  syncDotsX (horizontalProgress (Fin (top rct)) (scrollHeight s) (Fin (contentHeight e)))
            bar e (dots s).
Proof.
  intros H1 H2 H3 H4 H5. unfold updateTimeline, updateTimelineHorizontal, moveTracks.
  rewrite H1, H2, H3, H4, H5. simpl. rewrite H2.
  destruct (itemsContainer e); [ destruct (labelsTrack s) | ]; reflexivity.
Qed.

Lemma updateTimeline_vertical_dots (cfg : settings) (e : env) (s : state)
      (rct area : rect) (track : trackBox) :
  scrollSpacer e = Some rct -> itemsTrack s = true -> progressFill s = true ->
  isVerticalMobile cfg e = true -> timelineArea e = Some area ->
  progressTrack e = Some track ->
  dots (updateTimeline cfg e s) =
  syncDotsY (verticalProgress (Fin (top area)) (Fin (height area)) (Fin (innerHeight e)))
            (trackRect track) e (dots s).
Proof.
  intros H1 H2 H3 H4 H5 H6. unfold updateTimeline, updateTimelineVertical.
  rewrite H1, H2, H3, H4, H5, H6. reflexivity.
Qed.

(** C9.  In scroll mode, for every fraction [f] and dots [j < i] whose
    centres along the primary axis are in the order of their indices, if
    dot [i] is computed as filled at [f] then so is dot [j]; on the
    horizontal axis and on the vertical one. *)
Theorem scroll_dot_fill_monotone (f : num) (bar : rect) (e : env)
        (ds : list bool) (i j : nat) :
  (j < i)%nat ->
  (JS.le (dotCenterX (dotRect e j)) (dotCenterX (dotRect e i)) = true ->
   nth_error (syncDotsX f bar e ds) i = Some true ->
   nth_error (syncDotsX f bar e ds) j = Some true)
  /\ (JS.le (dotCenterY (dotRect e j)) (dotCenterY (dotRect e i)) = true ->
      nth_error (syncDotsY f bar e ds) i = Some true ->
      nth_error (syncDotsY f bar e ds) j = Some true).
Proof.
  intros Hji. unfold syncDotsX, syncDotsY. rewrite !forEach_const_nth_error.
  destruct (Nat.ltb_spec i (length ds)) as [Hi | Hi].
  - assert (Hj : (j <? length ds)%nat = true) by (apply Nat.ltb_lt; lia).
    rewrite Hj. unfold dotFilledX, dotFilledY, JS.ge.
    split; intros Hc Hf; injection Hf as Hf; f_equal;
      eapply le_trans_num; eassumption.
  - split; intros _ Hf; discriminate.
Qed.

Lemma scroll_dot_fill_monotone_witness :
  (0 < 1)%nat
  /\ JS.le (dotCenterX (sampleDotRect 0)) (dotCenterX (sampleDotRect 1)) = true
  /\ nth_error (syncDotsX (Fin (7 # 10)) sampleBar desktopPage
                          [false; false; false; false; false]) 1 = Some true
  /\ nth_error (syncDotsX (Fin (7 # 10)) sampleBar desktopPage
                          [false; false; false; false; false]) 0 = Some true.
Proof.
  assert (H1 : (0 < 1)%nat) by lia.
  assert (H2 : JS.le (dotCenterX (dotRect desktopPage 0))
                     (dotCenterX (dotRect desktopPage 1)) = true) by reflexivity.
  assert (H3 : nth_error (syncDotsX (Fin (7 # 10)) sampleBar desktopPage
                                    [false; false; false; false; false]) 1 = Some true)
    by reflexivity.
  refine (conj H1 (conj H2 (conj H3 _))).
  exact (proj1 (scroll_dot_fill_monotone (Fin (7 # 10)) sampleBar desktopPage
                  [false; false; false; false; false] 1 0 H1) H2 H3).
Defined.

(** ** Track Transform Engine: the lock invariant *)

(** C6.  In every state an instance can reach, the transform of the item
    track is the transform of the label track; in particular after a pass of
    [updateTimeline] (scroll mode) and after [goToIndex] (arrow mode), on any
    page. *)
Theorem track_translations_locked (cfg : settings) (s : state) :
  reachable cfg s ->
  itemsTransform s = labelsTransform s
  /\ (forall e, itemsTransform (updateTimeline cfg e s)
                = labelsTransform (updateTimeline cfg e s))
  /\ (forall e i, itemsTransform (final (goToIndex e i s))
                  = labelsTransform (final (goToIndex e i s))).
Proof.
  intros Hr. pose proof (reachable_tracksLocked cfg s Hr) as Hl.
  split; [ exact (proj2 Hl) | split ].
  - intros e. exact (proj2 (updateTimeline_tracksLocked cfg e s Hl)).
  - intros e i. exact (proj2 (goToIndex_tracksLocked e i s Hl)).
Qed.

Lemma track_translations_locked_witness :
  reachable scrollSettings (updateTimeline scrollSettings desktopPage scrollInstance)
  /\ itemsTransform (updateTimeline scrollSettings desktopPage scrollInstance)
     = Some (Fin (500000 # 1500))
  /\ itemsTransform (updateTimeline scrollSettings desktopPage scrollInstance)
     = labelsTransform (updateTimeline scrollSettings desktopPage scrollInstance).
Proof.
  assert (Hr : reachable scrollSettings
                 (updateTimeline scrollSettings desktopPage scrollInstance)).
  { exact (reach_fire scrollSettings scrollInstance desktopPage EvUpdate
             (reach_init scrollSettings (Some 5%nat) true desktopPage)). }
  refine (conj Hr (conj _ _)).
  - reflexivity.
  - exact (proj1 (track_translations_locked scrollSettings _ Hr)).
Defined.

(** ** Index Navigator across a resize *)

(** C10.  In every reachable state the current index is in range, clamping
    it is the identity, and the debounced resize recomputation of arrow mode,
    which calls [goToIndex(this.currentIndex)] outside the vertical mobile
    layout, leaves [currentIndex] and the item count as they were. *)
Theorem resize_preserves_current_index (cfg : settings) (e : env) (s : state) :
  reachable cfg s ->
  (forall n, data s = Some n -> (0 < n)%nat ->
             clampIndex (currentIndex s) n = currentIndex s)
  /\ (isVerticalMobile cfg e = false ->
      resizeArrows cfg e s
      = goToIndex e (currentIndex s) (calculateDimensions cfg e s))
  /\ data (final (resizeArrows cfg e s)) = data s
  /\ currentIndex (final (resizeArrows cfg e s)) = currentIndex s.
Proof.
  intros Hr. pose proof (reachable_indexInRange cfg s Hr) as Hi.
  split; [ | split; [ | split ] ].
  - intros n Hd Hn. apply clampIndex_id. unfold indexInRange in Hi.
    rewrite Hd in Hi. exact (Hi Hn).
  - intros Hv. unfold resizeArrows. rewrite Hv.
    destruct (calculateDimensions_frame cfg e s) as (_ & Hc & _). rewrite Hc. reflexivity.
  - unfold resizeArrows.
    destruct (calculateDimensions_frame cfg e s) as (Hd & _).
    destruct (isVerticalMobile cfg e); simpl.
    + destruct (updateTimeline_frame cfg e (calculateDimensions cfg e s)) as (Hd' & _).
      congruence.
    + destruct (goToIndex_frame e (currentIndex (calculateDimensions cfg e s))
                                (calculateDimensions cfg e s)) as (Hd' & _).
      congruence.
  - apply resizeArrows_keeps_index. exact Hi.
Qed.

Lemma resize_preserves_current_index_witness :
  reachable arrowSettings (final (goToIndex desktopPage 2 arrowInstance))
  /\ currentIndex (final (goToIndex desktopPage 2 arrowInstance)) = 2%Z
  /\ currentIndex (final (resizeArrows arrowSettings narrowerPage
                            (final (goToIndex desktopPage 2 arrowInstance)))) = 2%Z.
Proof.
  assert (Hr : reachable arrowSettings (final (goToIndex desktopPage 2 arrowInstance))).
  { exact (reach_fire arrowSettings arrowInstance desktopPage (EvGoTo 2)
             (reach_init arrowSettings (Some 5%nat) true desktopPage)). }
  refine (conj Hr (conj eq_refl _)).
  exact (proj2 (proj2 (proj2
           (resize_preserves_current_index arrowSettings narrowerPage _ Hr)))).
Defined.

(** ** Dimension Calculator *)

(** C7.  With items, a positive [scrollPerItem] and the scroll spacer in
    place: in scroll-driven horizontal mode [calculateDimensions] stores
    [contentHeight + itemCount × scrollPerItem] in [scrollHeight] and sets it
    as the spacer height in pixels; in arrow mode or in the vertical mobile
    layout [scrollHeight] is left alone and the spacer height is [auto]. *)
Theorem calculateDimensions_scroll_height (cfg : settings) (e : env) (s : state)
        (itemCount : nat) (perItem : Q) (spacer : rect) :
  data s = Some itemCount -> (0 < itemCount)%nat ->
  scrollPerItem cfg = Fin perItem -> 0 < perItem ->
  scrollSpacer e = Some spacer ->
  (navigationType cfg = Scroll -> isVerticalMobile cfg e = false ->
     scrollHeight (calculateDimensions cfg e s)
     = Fin (spec_scrollHeight (contentHeight e) itemCount perItem)
     /\ spacerHeight (calculateDimensions cfg e s)
        = HeightPx (Fin (spec_scrollHeight (contentHeight e) itemCount perItem)))
  /\ (navigationType cfg = Arrows \/ isVerticalMobile cfg e = true ->
        scrollHeight (calculateDimensions cfg e s) = scrollHeight s
        /\ spacerHeight (calculateDimensions cfg e s) = HeightAuto).
Proof.
  intros Hd Hn Hp Hpos Hs.
  assert (Ht : effectiveScrollPerItem cfg = Fin perItem).
  { unfold effectiveScrollPerItem. rewrite Hp. simpl.
    destruct (Qeq_bool perItem 0) eqn:E; [ | reflexivity ].
    apply Qeq_bool_iff in E. rewrite E in Hpos. exfalso. lra. }
  unfold calculateDimensions. rewrite Hd, Hs.
  destruct itemCount as [ | k]; [ lia | ].
  split.
  - intros Hnav Hv. rewrite Hnav, Hv, Ht. simpl. split; reflexivity.
  - intros [Hnav | Hv].
    + rewrite Hnav. simpl. split; reflexivity.
    + rewrite Hv, orb_true_r. simpl. split; reflexivity.
Qed.

(** Scenario A: five items, 300 pixels per item, content 800 high give
    2300; the same page in arrow mode gets an [auto] spacer. *)
Lemma calculateDimensions_scenario_A :
  let built := buildLayout scrollSettings true (extractData (Some 5%nat) newInstance) in
  let builtArrows := buildLayout arrowSettings true (extractData (Some 5%nat) newInstance) in
  (data built = Some 5%nat /\ (0 < 5)%nat /\ 0 < 300 /\ contentHeight desktopPage = 800
   /\ scrollHeight (calculateDimensions scrollSettings desktopPage built) =n= Fin 2300
   /\ spacerHeight (calculateDimensions scrollSettings desktopPage built)
      = HeightPx (Fin (spec_scrollHeight 800 5 300)))
  /\ (scrollHeight (calculateDimensions arrowSettings desktopPage builtArrows) = Fin 0
      /\ spacerHeight (calculateDimensions arrowSettings desktopPage builtArrows)
         = HeightAuto).
Proof.
  intros built builtArrows.
  assert (Hn : (0 < 5)%nat) by lia.
  assert (Hp : 0 < 300) by reflexivity.
  split.
  - destruct (calculateDimensions_scroll_height scrollSettings desktopPage built
                5 300 sampleSpacer eq_refl Hn eq_refl Hp eq_refl)
      as (Hscroll & _).
    destruct (Hscroll eq_refl eq_refl) as (Hh & Hs).
    refine (conj eq_refl (conj Hn (conj Hp (conj eq_refl (conj _ Hs))))).
    rewrite Hh. reflexivity.
  - destruct (calculateDimensions_scroll_height arrowSettings desktopPage builtArrows
                5 300 sampleSpacer eq_refl Hn eq_refl Hp eq_refl)
      as (_ & Harrows).
    exact (Harrows (or_introl eq_refl)).
Defined.

(** ** Index Navigator *)

Lemma maxTranslate_spec (trackWidth containerWidth : Q) :
  maxTranslate trackWidth containerWidth
  =n= Fin (spec_maxTranslate trackWidth containerWidth).
Proof. unfold maxTranslate, spec_maxTranslate. simpl JS.sub. apply max_Fin. Qed.

(** The code clamps from below first and from above second; the upper bound
    is never negative, so this is the clamp of the specification. *)
Lemma arrowTranslateX_spec (item : itemBox) (containerWidth trackWidth : Q) :
  arrowTranslateX item containerWidth trackWidth
  =n= Fin (spec_targetTranslate (offsetLeft item) (offsetWidth item)
                                containerWidth trackWidth).
Proof.
  unfold arrowTranslateX, targetTranslate, spec_targetTranslate, spec_clamp.
  assert (H2 : ~ 2 == 0) by discriminate.
  rewrite !(div_Fin _ 2 H2). simpl JS.sub. simpl JS.add.
  set (raw := offsetLeft item + - (containerWidth / 2) + offsetWidth item / 2).
  eapply same_trans.
  { apply min_same; [ apply max_Fin | apply maxTranslate_spec ]. }
  eapply same_trans; [ apply min_Fin | ].
  simpl. unfold Qminus. fold raw.
  set (m := spec_maxTranslate trackWidth containerWidth).
  assert (Hm : 0 <= m) by (apply Q.le_max_l).
  destruct (Q.max_spec 0 raw) as [(Hlt & ->) | (Hle & ->)].
  - destruct (Q.min_spec m raw) as [(Hlt' & E) | (Hle' & E)]; rewrite E.
    + rewrite Q.min_r by lra. rewrite Q.max_r by lra. reflexivity.
    + rewrite Q.min_l by lra. rewrite Q.max_r by lra. reflexivity.
  - rewrite Q.min_l by lra.
    rewrite (Q.min_r m raw) by lra. rewrite Q.max_l by lra. reflexivity.
Qed.

(** When the clamp is idle the centre of the item lands on the centre of
    the container. *)
Lemma spec_targetTranslate_centers (itemOffset itemLength containerLength trackLength : Q) :
  0 <= itemOffset - containerLength / 2 + itemLength / 2
       <= spec_maxTranslate trackLength containerLength ->
  itemOffset + itemLength / 2
  - spec_targetTranslate itemOffset itemLength containerLength trackLength
  == containerLength / 2.
Proof.
  intros [H0 H1]. unfold spec_targetTranslate, spec_clamp.
  rewrite Q.min_r by exact H1. rewrite Q.max_r by exact H0. ring.
Qed.

(** *** The steps of [goToIndex] *)

Lemma goToIndex_unfold (e : env) (i : Z) (s : state) (n : nat) :
  data s = Some n -> (0 < n)%nat ->
  goToIndex e i s
  = (s2 <- centerCurrentItem e n (setCurrentIndex (clampIndex i n) s) ;;
     updateArrowStates (setDots (syncDotsByIndex (currentIndex s2) (dots s2)) s2)).
Proof.
  intros Hd Hn. unfold goToIndex. rewrite Hd.
  destruct n as [ | k]; [ lia | reflexivity ].
Qed.

(** With every target in place the guarded block moves both tracks and
    writes the fill. *)
Lemma centerCurrentItem_ready (e : env) (s : state) (n : nat)
      (containerWidth : Q) (track : trackBox) (item : itemBox) :
  itemsContainer e = Some containerWidth -> progressTrack e = Some track ->
  itemsTrack s = true -> labelsTrack s = true -> progressFill s = true ->
  nth_error (trackItems e) (Z.to_nat (currentIndex s)) = Some item ->
  (Z.to_nat (currentIndex s) < length (dots s))%nat ->
  let t := arrowTranslateX item containerWidth (trackScrollWidth e) in
  centerCurrentItem e n s
  = Returns (setFillWidth
               (Some (fillPercent item t (trackOffsetWidth track) (currentIndex s) n))
               (setLabelsTransform (Some t) (setItemsTransform (Some t) s))).
Proof.
  intros Hc Hp Hit Hlt Hpf Hitem Hdot t.
  destruct (nth_error (dots s) (Z.to_nat (currentIndex s))) as [d | ] eqn:Hnd;
    [ | apply nth_error_None in Hnd; lia ].
  assert (Hlen : negb (length (trackItems e) =? 0)%nat = true).
  { destruct (trackItems e); [ destruct (Z.to_nat _); discriminate | reflexivity ]. }
  unfold centerCurrentItem, moveTracks.
  rewrite Hc, Hp, Hit, Hlen, Hitem, Hnd.
  cbn [andb labelsTrack setItemsTransform]. rewrite Hlt.
  cbn [progressFill setLabelsTransform setItemsTransform]. rewrite Hpf.
  reflexivity.
Qed.

Lemma centerCurrentItem_skipped (e : env) (s : state) (n : nat) :
  blockSkipped e s (currentIndex s) -> centerCurrentItem e n s = Returns s.
Proof.
  unfold blockSkipped, centerCurrentItem.
  intros [H | [H | [H | [H | [H | H]]]]]; rewrite ?H;
    repeat break_match; simpl in *; try reflexivity; try congruence;
    match goal with
    | Hb : _ && false = true |- _ => rewrite andb_false_r in Hb; discriminate
    end.
Qed.

(** [updateArrowStates] called with items: it returns and touches the two
    buttons only. *)
Lemma updateArrowStates_with_items (s : state) (n : nat) :
  data s = Some n ->
  threw (updateArrowStates s) = false
  /\ final (updateArrowStates s)
     = match prevButton s, nextButton s with
       | Some _, Some _ =>
           setButtons (Some (currentIndex s =? 0)%Z)
                      (Some (Z.of_nat n - 1 <=? currentIndex s)%Z) s
       | _, _ => s
       end.
Proof.
  intros Hd. unfold updateArrowStates. rewrite Hd.
  destruct (prevButton s), (nextButton s); split; reflexivity.
Qed.

Lemma updateArrowStates_frame (s : state) (n : nat) :
  data s = Some n ->
  let s' := final (updateArrowStates s) in
  currentIndex s' = currentIndex s /\ dots s' = dots s
  /\ itemsTransform s' = itemsTransform s /\ labelsTransform s' = labelsTransform s
  /\ fillWidth s' = fillWidth s /\ fillHeight s' = fillHeight s.
Proof.
  intros Hd s'. subst s'.
  rewrite (proj2 (updateArrowStates_with_items s n Hd)).
  destruct (prevButton s), (nextButton s); repeat split; reflexivity.
Qed.

(** C5.  On a reachable instance whose layout is built, with the items
    container, the progress track and the target item on the page:
    [goToIndex(i)] returns; [currentIndex] is [i] clamped into
    [[0, itemCount-1]]; both tracks are translated by
    [clamp(itemOffset - containerLength/2 + itemLength/2, 0, maxTranslate)];
    and on the last index the fill is 100%, whatever the geometric fill. *)
Theorem goToIndex_centers_target (cfg : settings) (e : env) (s : state) (i : Z)
        (itemCount : nat) (containerWidth : Q) (track : trackBox) (item : itemBox) :
  reachable cfg s -> itemsTrack s = true ->
  data s = Some itemCount -> (0 < itemCount)%nat ->
  itemsContainer e = Some containerWidth -> progressTrack e = Some track ->
  nth_error (trackItems e) (Z.to_nat (spec_clampIndex i itemCount)) = Some item ->
  threw (goToIndex e i s) = false
  /\ currentIndex (final (goToIndex e i s)) = spec_clampIndex i itemCount
  /\ (exists t,
        itemsTransform (final (goToIndex e i s)) = Some t
        /\ labelsTransform (final (goToIndex e i s)) = Some t
        /\ t =n= Fin (spec_targetTranslate (offsetLeft item) (offsetWidth item)
                                           containerWidth (trackScrollWidth e))
        /\ (spec_clampIndex i itemCount <> (Z.of_nat itemCount - 1)%Z ->
            fillWidth (final (goToIndex e i s))
            = Some (geometricFillPercent item t (trackOffsetWidth track))))
  /\ (spec_clampIndex i itemCount = (Z.of_nat itemCount - 1)%Z ->
      fillWidth (final (goToIndex e i s)) = Some (Fin 100)).
Proof.
  intros Hr Hit Hd Hn Hc Hp Hitem.
  destruct (reachable_layoutConsistent cfg s Hr Hit) as (Hlt & Hpf & Hlen & _).
  assert (Hcount : length (dots s) = itemCount) by congruence.
  rewrite <- (clampIndex_spec i itemCount Hn) in *.
  set (c := clampIndex i itemCount) in *.
  assert (Hdot : (Z.to_nat c < length (dots s))%nat).
  { pose proof (clampIndex_range i itemCount Hn). fold c in H. lia. }
  set (t := arrowTranslateX item containerWidth (trackScrollWidth e)).
  rewrite (goToIndex_unfold e i s itemCount Hd Hn). fold c.
  rewrite (centerCurrentItem_ready e (setCurrentIndex c s) itemCount
             containerWidth track item Hc Hp Hit Hlt Hpf Hitem Hdot).
  fold t. cbn [andThen].
  match goal with |- context [updateArrowStates ?x] => set (s3 := x) end.
  assert (Hd3 : data s3 = Some itemCount) by exact Hd.
  destruct (updateArrowStates_with_items s3 itemCount Hd3) as (Hthrew & _).
  destruct (updateArrowStates_frame s3 itemCount Hd3) as (Hci & _ & Hti & Htl & Hfw & _).
  rewrite Hci, Hti, Htl, Hfw.
  split; [ exact Hthrew | split; [ reflexivity | split ] ].
  - exists t. split; [ reflexivity | split; [ reflexivity | split ] ].
    + apply arrowTranslateX_spec.
    + intros Hne. subst s3. cbn. unfold fillPercent.
      apply Z.eqb_neq in Hne. fold c. rewrite Hne. reflexivity.
  - intros He. subst s3. cbn. unfold fillPercent. fold c. rewrite He.
    rewrite Z.eqb_refl. reflexivity.
Qed.

(** Five items, [goToIndex(7)]: the index is clamped to 4, the last one;
    the track is translated by 1000, its maximum, which leaves the dot at 80%
    of the progress track, and the fill is 100% all the same. *)
Lemma goToIndex_last_item_fills :
  reachable arrowSettings arrowInstance
  /\ data arrowInstance = Some 5%nat
  /\ nth_error (trackItems desktopPage) (Z.to_nat (spec_clampIndex 7 5))
     = Some (mkItemBox 1600 400)
  /\ threw (goToIndex desktopPage 7 arrowInstance) = false
  /\ currentIndex (final (goToIndex desktopPage 7 arrowInstance)) = 4%Z
  /\ itemsTransform (final (goToIndex desktopPage 7 arrowInstance)) = Some (Fin 1000)
  /\ labelsTransform (final (goToIndex desktopPage 7 arrowInstance)) = Some (Fin 1000)
  /\ geometricFillPercent (mkItemBox 1600 400) (Fin 1000) 1000 =n= Fin 80
  /\ fillWidth (final (goToIndex desktopPage 7 arrowInstance)) = Some (Fin 100).
Proof.
  assert (Hr : reachable arrowSettings arrowInstance)
    by exact (reach_init arrowSettings (Some 5%nat) true desktopPage).
  assert (Hn : (0 < 5)%nat) by lia.
  destruct (goToIndex_centers_target arrowSettings desktopPage arrowInstance 7 5 1000
              sampleTrack (mkItemBox 1600 400) Hr eq_refl eq_refl Hn eq_refl eq_refl
              eq_refl) as (Hthrew & Hidx & _ & Hlast).
  refine (conj Hr (conj eq_refl (conj eq_refl (conj Hthrew (conj Hidx
            (conj eq_refl (conj eq_refl (conj _ (Hlast eq_refl))))))))).
  reflexivity.
Defined.

(** ** Missing DOM targets *)

(** C3, as the code has it.  [updateTimeline] returns without writing when
    the scroll spacer, the items track, the progress fill or, in the vertical
    layout, the timeline area is missing, and [goToIndex] does so when there
    are no items.  A target missing further down only skips the step it
    guards.  In horizontal [updateTimeline] a missing items container leaves
    the two transforms alone while the fill is written, and a missing
    progress container leaves the dots alone; in the vertical layout a
    missing progress track leaves the dots alone.  In [goToIndex] a missing
    items container, progress track, items track, target item or target dot
    leaves the transforms and the fill alone, while [currentIndex] becomes
    the clamped index, every dot is filled exactly when its index is at most
    [currentIndex], and the buttons, when both exist, get their disabled
    state.  No error is raised. *)
Theorem missing_target_passes (cfg : settings) (e : env) (s : state) :
  (scrollSpacer e = None \/ itemsTrack s = false \/ progressFill s = false
   \/ (isVerticalMobile cfg e = true /\ timelineArea e = None) ->
   updateTimeline cfg e s = s)
  /\ (forall rct, scrollSpacer e = Some rct -> itemsTrack s = true ->
        progressFill s = true -> isVerticalMobile cfg e = false ->
        itemsContainer e = None ->
        itemsTransform (updateTimeline cfg e s) = itemsTransform s
        /\ labelsTransform (updateTimeline cfg e s) = labelsTransform s
        /\ fillWidth (updateTimeline cfg e s)
           = Some (JS.mul (horizontalProgress (Fin (top rct)) (scrollHeight s)
                                              (Fin (contentHeight e))) (Fin 100)))
  /\ (isVerticalMobile cfg e = false -> progressContainer e = None ->
        dots (updateTimeline cfg e s) = dots s)
  /\ (isVerticalMobile cfg e = true -> progressTrack e = None ->
        dots (updateTimeline cfg e s) = dots s)
  /\ (forall i, data s = None \/ data s = Some O -> goToIndex e i s = Returns s)
  /\ (forall i n, data s = Some n -> (0 < n)%nat ->
        blockSkipped e s (clampIndex i n) ->
        threw (goToIndex e i s) = false
        /\ currentIndex (final (goToIndex e i s)) = spec_clampIndex i n
        /\ dots (final (goToIndex e i s)) = syncDotsByIndex (spec_clampIndex i n) (dots s)
        /\ itemsTransform (final (goToIndex e i s)) = itemsTransform s
        /\ labelsTransform (final (goToIndex e i s)) = labelsTransform s
        /\ fillWidth (final (goToIndex e i s)) = fillWidth s
        /\ fillHeight (final (goToIndex e i s)) = fillHeight s
        /\ (forall p q, prevButton s = Some p -> nextButton s = Some q ->
              prevButton (final (goToIndex e i s)) = Some (spec_clampIndex i n =? 0)%Z
              /\ nextButton (final (goToIndex e i s))
                 = Some (Z.of_nat n - 1 <=? spec_clampIndex i n)%Z)).
Proof.
  split; [ | split; [ | split; [ | split; [ | split ] ] ] ].
  - intros [H | [H | [H | [Hv Ha]]]]; unfold updateTimeline.
    + rewrite H. reflexivity.
    + rewrite H. destruct (scrollSpacer e); reflexivity.
    + rewrite H, orb_true_r. destruct (scrollSpacer e); reflexivity.
    + unfold updateTimelineVertical. rewrite Hv, Ha.
      destruct (scrollSpacer e); [ | reflexivity ].
      destruct (negb (itemsTrack s) || negb (progressFill s)); reflexivity.
  - intros rct Hs Hit Hpf Hv Hc.
    unfold updateTimeline, updateTimelineHorizontal.
    rewrite Hs, Hit, Hpf, Hv, Hc. cbn [negb orb].
    destruct (progressContainer e); repeat split; reflexivity.
  - intros Hv Hc. unfold updateTimeline, updateTimelineHorizontal, moveTracks.
    rewrite Hv, Hc. repeat break_match; reflexivity.
  - intros Hv Hc. unfold updateTimeline, updateTimelineVertical.
    rewrite Hv, Hc. repeat break_match; reflexivity.
  - intros i H. apply goToIndex_no_items. exact H.
  - intros i n Hd Hn Hskip.
    rewrite <- (clampIndex_spec i n Hn).
    set (c := clampIndex i n) in *.
    rewrite (goToIndex_unfold e i s n Hd Hn). fold c.
    rewrite (centerCurrentItem_skipped e (setCurrentIndex c s) n) by exact Hskip.
    cbn [andThen].
    match goal with |- context [updateArrowStates ?x] => set (s3 := x) end.
    assert (Hd3 : data s3 = Some n) by exact Hd.
    destruct (updateArrowStates_with_items s3 n Hd3) as (Hthrew & Hfin).
    destruct (updateArrowStates_frame s3 n Hd3) as (Hci & Hdots & Hti & Htl & Hfw & Hfh).
    rewrite Hci, Hdots, Hti, Htl, Hfw, Hfh.
    repeat (split; [ first [ exact Hthrew | reflexivity ] | ]).
    intros p q Hp Hq. rewrite Hfin.
    change (prevButton s3) with (prevButton s). change (nextButton s3) with (nextButton s).
    rewrite Hp, Hq. split; reflexivity.
Qed.

Lemma missing_target_passes_witness :
  (scrollSpacer pageWithoutSpacer = None
   /\ updateTimeline scrollSettings pageWithoutSpacer scrollInstance = scrollInstance)
  /\ (itemsContainer pageWithoutItemsContainer = None
      /\ itemsTransform (updateTimeline scrollSettings pageWithoutItemsContainer scrollInstance)
         = None
      /\ fillWidth (updateTimeline scrollSettings pageWithoutItemsContainer scrollInstance)
         = Some (Fin (50000 # 1500)))
  /\ (progressContainer pageWithoutProgressContainer = None
      /\ dots (updateTimeline scrollSettings pageWithoutProgressContainer scrollInstance)
         = repeat false 5)
  /\ (progressTrack phoneWithoutProgressTrack = None
      /\ dots (updateTimeline verticalSettings phoneWithoutProgressTrack verticalInstance)
         = repeat false 5)
  /\ goToIndex desktopPage 2 (init arrowSettings (Some O) true desktopPage)
     = Returns (init arrowSettings (Some O) true desktopPage)
  /\ (blockSkipped pageWithoutItemsContainer arrowInstance (clampIndex 2 5)
      /\ threw (goToIndex pageWithoutItemsContainer 2 arrowInstance) = false
      /\ currentIndex (final (goToIndex pageWithoutItemsContainer 2 arrowInstance)) = 2%Z
      /\ dots (final (goToIndex pageWithoutItemsContainer 2 arrowInstance))
         = [true; true; true; false; false]
      /\ itemsTransform (final (goToIndex pageWithoutItemsContainer 2 arrowInstance)) = None
      /\ fillWidth (final (goToIndex pageWithoutItemsContainer 2 arrowInstance)) = None
      /\ prevButton (final (goToIndex pageWithoutItemsContainer 2 arrowInstance))
         = Some false).
Proof.
  split; [ | split; [ | split; [ | split; [ | split ] ] ] ].
  - split; [ reflexivity | ].
    exact (proj1 (missing_target_passes scrollSettings pageWithoutSpacer scrollInstance)
                 (or_introl eq_refl)).
  - destruct (missing_target_passes scrollSettings pageWithoutItemsContainer scrollInstance)
      as (_ & H & _).
    destruct (H sampleSpacer eq_refl eq_refl eq_refl eq_refl eq_refl) as (Ht & _ & Hf).
    refine (conj eq_refl (conj Ht _)). rewrite Hf. reflexivity.
  - destruct (missing_target_passes scrollSettings pageWithoutProgressContainer scrollInstance)
      as (_ & _ & H & _).
    exact (conj eq_refl (H eq_refl eq_refl)).
  - destruct (missing_target_passes verticalSettings phoneWithoutProgressTrack verticalInstance)
      as (_ & _ & _ & H & _).
    exact (conj eq_refl (H eq_refl eq_refl)).
  - destruct (missing_target_passes arrowSettings desktopPage
                (init arrowSettings (Some O) true desktopPage))
      as (_ & _ & _ & _ & H & _).
    exact (H 2%Z (or_intror eq_refl)).
  - assert (Hskip : blockSkipped pageWithoutItemsContainer arrowInstance (clampIndex 2 5))
      by (left; reflexivity).
    assert (Hn : (0 < 5)%nat) by lia.
    destruct (missing_target_passes arrowSettings pageWithoutItemsContainer arrowInstance)
      as (_ & _ & _ & _ & _ & H).
    destruct (H 2%Z 5%nat eq_refl Hn Hskip)
      as (Hthrew & Hidx & Hdots & Hti & _ & Hfw & _ & Hb).
    refine (conj Hskip (conj Hthrew (conj Hidx (conj Hdots (conj Hti (conj Hfw _)))))).
    exact (proj1 (Hb false false eq_refl eq_refl)).
Defined.

(** C3 as stated fails.  With the items container missing, [goToIndex(2)]
    on a five-item instance moves [currentIndex] from 0 to 2 and fills three
    dots, and a scroll pass writes the fill width and fills a dot, while the
    transforms stay unset. *)
Lemma missing_items_container_partial_mutation :
  itemsContainer pageWithoutItemsContainer = None
  /\ (currentIndex arrowInstance = 0%Z
      /\ currentIndex (final (goToIndex pageWithoutItemsContainer 2 arrowInstance)) = 2%Z
      /\ dots arrowInstance = [false; false; false; false; false]
      /\ dots (final (goToIndex pageWithoutItemsContainer 2 arrowInstance))
         = [true; true; true; false; false]
      /\ final (goToIndex pageWithoutItemsContainer 2 arrowInstance) <> arrowInstance)
  /\ (fillWidth scrollInstance = None
      /\ fillWidth (updateTimeline scrollSettings pageWithoutItemsContainer scrollInstance)
         = Some (Fin (50000 # 1500))
      /\ dots (updateTimeline scrollSettings pageWithoutItemsContainer scrollInstance)
         = [true; false; false; false; false]
      /\ itemsTransform (updateTimeline scrollSettings pageWithoutItemsContainer scrollInstance)
         = None
      /\ updateTimeline scrollSettings pageWithoutItemsContainer scrollInstance
         <> scrollInstance).
Proof.
  repeat split; try reflexivity; intros H; apply (f_equal dots) in H; discriminate H.
Qed.

(* ================================================================== *)
(** * Part IV: further properties of the code *)
(* ================================================================== *)

(** ** The Index Navigator as a state machine *)

Section Navigator.

Variable cfg : settings.

Lemma indexWellFormed_transfer (s s' : state) :
  data s' = data s -> currentIndex s' = currentIndex s ->
  indexWellFormed s -> indexWellFormed s'.
Proof. unfold indexWellFormed. intros -> ->. auto. Qed.

Lemma goToIndex_indexWellFormed e i s :
  indexWellFormed s -> indexWellFormed (final (goToIndex e i s)).
Proof.
  intros H. destruct (data s) as [ [ | k] | ] eqn:D.
  - rewrite goToIndex_no_items by auto. exact H.
  - unfold indexWellFormed.
    destruct (goToIndex_frame e i s) as (Hd & _). rewrite Hd, D.
    rewrite (goToIndex_currentIndex e i s k D). apply clampIndex_range. lia.
  - rewrite goToIndex_no_items by auto. exact H.
Qed.

Lemma goNext_indexWellFormed e s :
  indexWellFormed s -> indexWellFormed (final (goNext e s)).
Proof.
  intros H. unfold goNext. destruct (data s) eqn:D; [ | exact H ].
  destruct (currentIndex s <? _)%Z; [ apply goToIndex_indexWellFormed | ]; exact H.
Qed.

Lemma goPrev_indexWellFormed e s :
  indexWellFormed s -> indexWellFormed (final (goPrev e s)).
Proof.
  intros H. unfold goPrev.
  destruct (0 <? currentIndex s)%Z; [ apply goToIndex_indexWellFormed | ]; exact H.
Qed.

Lemma fire_indexWellFormed e ev s :
  indexWellFormed s -> indexWellFormed (final (fire cfg e ev s)).
Proof.
  intros H.
  pose proof (calculateDimensions_frame cfg e s) as (Cd & Cc & _).
  assert (HC : indexWellFormed (calculateDimensions cfg e s))
    by (eapply indexWellFormed_transfer; eassumption).
  destruct ev; simpl.
  - destruct (updateTimeline_frame cfg e s) as (Hd & Hc & _).
    eapply indexWellFormed_transfer; eassumption.
  - exact HC.
  - apply goToIndex_indexWellFormed, H.
  - apply goNext_indexWellFormed, H.
  - apply goPrev_indexWellFormed, H.
  - unfold resizeArrows. destruct (isVerticalMobile cfg e); simpl.
    + destruct (updateTimeline_frame cfg e (calculateDimensions cfg e s)) as (Hd & Hc & _).
      eapply indexWellFormed_transfer; eassumption.
    + apply goToIndex_indexWellFormed, HC.
  - unfold resizeScroll.
    destruct (updateTimeline_frame cfg e (calculateDimensions cfg e s)) as (Hd & Hc & _).
    eapply indexWellFormed_transfer; eassumption.
  - exact H.
Qed.

Lemma init_indexWellFormed found cw e : indexWellFormed (init cfg found cw e).
Proof.
  unfold init.
  destruct (calculateDimensions_frame cfg e
              (buildLayout cfg cw (extractData found newInstance)))
    as (Hd & Hc & _).
  destruct (buildLayout_frame cfg cw (extractData found newInstance)) as (Hd' & Hc').
  unfold indexWellFormed. rewrite Hd, Hc, Hd', Hc'.
  cbn [data currentIndex extractData newInstance].
  destruct found as [ [ | k] | ]; try reflexivity. lia.
Qed.

End Navigator.

(** X1.  In every state an instance can reach, [currentIndex] designates an
    item: it lies in [[0, itemCount - 1]] when there are items and is 0 when
    there are none. *)
Theorem current_index_designates_an_item (cfg : settings) (s : state) :
  reachable cfg s ->
  (forall n, data s = Some n -> (0 < n)%nat ->
             (0 <= currentIndex s <= Z.of_nat n - 1)%Z)
  /\ (data s = None \/ data s = Some O -> currentIndex s = 0%Z).
Proof.
  intros Hr.
  assert (H : indexWellFormed s).
  { induction Hr as [found cw e | s e ev _ IH].
    - apply init_indexWellFormed.
    - apply fire_indexWellFormed, IH. }
  unfold indexWellFormed in H. split.
  - intros n Hd Hn. rewrite Hd in H. destruct n as [ | k]; [ lia | exact H ].
  - intros [Hd | Hd]; rewrite Hd in H; exact H.
Qed.

Lemma current_index_designates_an_item_witness :
  reachable arrowSettings (final (goToIndex desktopPage 9 arrowInstance))
  /\ data (final (goToIndex desktopPage 9 arrowInstance)) = Some 5%nat
  /\ (0 <= currentIndex (final (goToIndex desktopPage 9 arrowInstance)) <= 5 - 1)%Z.
Proof.
  assert (Hr : reachable arrowSettings (final (goToIndex desktopPage 9 arrowInstance))).
  { exact (reach_fire arrowSettings arrowInstance desktopPage (EvGoTo 9)
             (reach_init arrowSettings (Some 5%nat) true desktopPage)). }
  assert (Hn : (0 < 5)%nat) by lia.
  refine (conj Hr (conj eq_refl _)).
  exact (proj1 (current_index_designates_an_item arrowSettings _ Hr) 5%nat eq_refl Hn).
Defined.

(** X2.  On a reachable instance with items neither [goNext] nor [goPrev]
    raises an error.  [goNext] moves [currentIndex] forward by exactly one,
    except on the last item, where it returns without writing anything;
    [goPrev] moves it back by exactly one, except on the first item, where
    it returns without writing anything. *)
Theorem goNext_goPrev_step (cfg : settings) (e : env) (s : state) (n : nat) :
  reachable cfg s -> data s = Some n -> (0 < n)%nat ->
  threw (goNext e s) = false /\ threw (goPrev e s) = false
  /\ (currentIndex s = (Z.of_nat n - 1)%Z -> goNext e s = Returns s)
  /\ (currentIndex s <> (Z.of_nat n - 1)%Z ->
      currentIndex (final (goNext e s)) = (currentIndex s + 1)%Z)
  /\ (currentIndex s = 0%Z -> goPrev e s = Returns s)
  /\ (currentIndex s <> 0%Z ->
      currentIndex (final (goPrev e s)) = (currentIndex s - 1)%Z).
Proof.
  intros Hr Hd Hn.
  pose proof (reachable_indexInRange cfg s Hr) as Hi.
  unfold indexInRange in Hi. rewrite Hd in Hi. specialize (Hi Hn).
  destruct n as [ | k]; [ lia | ].
  unfold goNext, goPrev. rewrite Hd.
  repeat split.
  - destruct (currentIndex s <? _)%Z; [ apply (goToIndex_returns cfg); exact Hr | reflexivity ].
  - destruct (0 <? currentIndex s)%Z; [ apply (goToIndex_returns cfg); exact Hr | reflexivity ].
  - intros He. rewrite He, Z.ltb_irrefl. reflexivity.
  - intros Hne.
    assert (Hlt : (currentIndex s <? Z.of_nat (S k) - 1)%Z = true) by (apply Z.ltb_lt; lia).
    rewrite Hlt, (goToIndex_currentIndex e _ s k Hd). apply clampIndex_id. lia.
  - intros He. rewrite He. reflexivity.
  - intros Hne.
    assert (Hlt : (0 <? currentIndex s)%Z = true) by (apply Z.ltb_lt; lia).
    rewrite Hlt, (goToIndex_currentIndex e _ s k Hd). apply clampIndex_id. lia.
Qed.

Lemma goNext_goPrev_step_witness :
  reachable arrowSettings arrowInstance
  /\ data arrowInstance = Some 5%nat
  /\ currentIndex arrowInstance = 0%Z
  /\ currentIndex (final (goNext desktopPage arrowInstance)) = 1%Z
  /\ goPrev desktopPage arrowInstance = Returns arrowInstance.
Proof.
  assert (Hr : reachable arrowSettings arrowInstance)
    by exact (reach_init arrowSettings (Some 5%nat) true desktopPage).
  assert (Hn : (0 < 5)%nat) by lia.
  destruct (goNext_goPrev_step arrowSettings desktopPage arrowInstance 5 Hr eq_refl Hn)
    as (_ & _ & _ & Hnext & Hfirst & _).
  refine (conj Hr (conj eq_refl (conj eq_refl (conj _ (Hfirst eq_refl))))).
  apply Hnext. discriminate.
Defined.

(** X3.  [goNext] followed by [goPrev] brings [currentIndex] back, on
    whatever pages the two run, when the walk starts before the last item;
    so does [goPrev] followed by [goNext] when it starts after the first. *)
Theorem goNext_goPrev_round_trip (cfg : settings) (e1 e2 : env) (s : state) (n : nat) :
  reachable cfg s -> data s = Some n -> (0 < n)%nat ->
  (currentIndex s <> (Z.of_nat n - 1)%Z ->
   currentIndex (final (goPrev e2 (final (goNext e1 s)))) = currentIndex s)
  /\ (currentIndex s <> 0%Z ->
      currentIndex (final (goNext e2 (final (goPrev e1 s)))) = currentIndex s).
Proof.
  intros Hr Hd Hn.
  pose proof (reachable_indexInRange cfg s Hr) as Hi.
  unfold indexInRange in Hi. rewrite Hd in Hi. specialize (Hi Hn).
  destruct n as [ | k]; [ lia | ].
  split; intros Hne.
  - assert (Hlt : (currentIndex s <? Z.of_nat (S k) - 1)%Z = true) by (apply Z.ltb_lt; lia).
    assert (Hs : final (goNext e1 s) = final (goToIndex e1 (currentIndex s + 1) s)).
    { unfold goNext. rewrite Hd, Hlt. reflexivity. }
    rewrite Hs.
    set (s1 := final (goToIndex e1 (currentIndex s + 1) s)).
    assert (Hd1 : data s1 = Some (S k)).
    { unfold s1. destruct (goToIndex_frame e1 (currentIndex s + 1) s) as (H & _). congruence. }
    assert (Hc1 : currentIndex s1 = (currentIndex s + 1)%Z).
    { unfold s1. rewrite (goToIndex_currentIndex e1 _ s k Hd). apply clampIndex_id. lia. }
    unfold goPrev.
    assert (Hpos : (0 <? currentIndex s1)%Z = true) by (apply Z.ltb_lt; lia).
    rewrite Hpos, (goToIndex_currentIndex e2 _ s1 k Hd1), Hc1.
    rewrite clampIndex_id by lia. lia.
  - assert (Hpos : (0 <? currentIndex s)%Z = true) by (apply Z.ltb_lt; lia).
    assert (Hs : final (goPrev e1 s) = final (goToIndex e1 (currentIndex s - 1) s)).
    { unfold goPrev. rewrite Hpos. reflexivity. }
    rewrite Hs.
    set (s1 := final (goToIndex e1 (currentIndex s - 1) s)).
    assert (Hd1 : data s1 = Some (S k)).
    { unfold s1. destruct (goToIndex_frame e1 (currentIndex s - 1) s) as (H & _). congruence. }
    assert (Hc1 : currentIndex s1 = (currentIndex s - 1)%Z).
    { unfold s1. rewrite (goToIndex_currentIndex e1 _ s k Hd). apply clampIndex_id. lia. }
    unfold goNext. rewrite Hd1.
    assert (Hlt : (currentIndex s1 <? Z.of_nat (S k) - 1)%Z = true) by (apply Z.ltb_lt; lia).
    rewrite Hlt, (goToIndex_currentIndex e2 _ s1 k Hd1), Hc1.
    rewrite clampIndex_id by lia. lia.
Qed.

Lemma goNext_goPrev_round_trip_witness :
  reachable arrowSettings arrowInstance
  /\ currentIndex arrowInstance <> (5 - 1)%Z
  /\ currentIndex (final (goPrev narrowerPage (final (goNext desktopPage arrowInstance))))
     = currentIndex arrowInstance.
Proof.
  assert (Hr : reachable arrowSettings arrowInstance)
    by exact (reach_init arrowSettings (Some 5%nat) true desktopPage).
  assert (Hn : (0 < 5)%nat) by lia.
  assert (Hne : currentIndex arrowInstance <> (5 - 1)%Z) by discriminate.
  refine (conj Hr (conj Hne _)).
  exact (proj1 (goNext_goPrev_round_trip arrowSettings desktopPage narrowerPage
                  arrowInstance 5 Hr eq_refl Hn) Hne).
Defined.

(** ** What [goToIndex] displays *)

Lemma centerCurrentItem_frame (e : env) (n : nat) (s : state) :
  let s' := final (centerCurrentItem e n s) in
  data s' = data s /\ currentIndex s' = currentIndex s /\ dots s' = dots s
  /\ prevButton s' = prevButton s /\ nextButton s' = nextButton s.
Proof.
  intros s'. subst s'. unfold centerCurrentItem, moveTracks.
  repeat break_match; simpl; repeat split; reflexivity.
Qed.

(** The dots and buttons a returning [goToIndex] leaves. *)
Lemma goToIndex_dots_and_buttons (e : env) (i : Z) (s : state) (n : nat) :
  data s = Some n -> (0 < n)%nat -> threw (goToIndex e i s) = false ->
  dots (final (goToIndex e i s)) = syncDotsByIndex (clampIndex i n) (dots s)
  /\ (forall p q, prevButton s = Some p -> nextButton s = Some q ->
        prevButton (final (goToIndex e i s)) = Some (clampIndex i n =? 0)%Z
        /\ nextButton (final (goToIndex e i s))
           = Some (Z.of_nat n - 1 <=? clampIndex i n)%Z).
Proof.
  intros Hd Hn. rewrite (goToIndex_unfold e i s n Hd Hn).
  set (c := clampIndex i n).
  destruct (centerCurrentItem_frame e n (setCurrentIndex c s))
    as (Cd & Cc & Cdots & Cp & Cn).
  destruct (centerCurrentItem e n (setCurrentIndex c s)) as [s2 | s2] eqn:E;
    cbn [andThen final] in *; [ | discriminate ].
  cbn [data currentIndex dots prevButton nextButton setCurrentIndex] in Cd, Cc, Cdots, Cp, Cn.
  intros _. rewrite Cc, Cdots.
  set (s3 := setDots (syncDotsByIndex c (dots s)) s2).
  assert (Hd3 : data s3 = Some n) by (unfold s3; cbn [data setDots]; congruence).
  destruct (updateArrowStates_with_items s3 n Hd3) as (_ & Hfin).
  destruct (updateArrowStates_frame s3 n Hd3) as (Hci & Hdots & _).
  split; [ rewrite Hdots; reflexivity | ].
  intros p q Hp Hq. rewrite Hfin.
  assert (P3 : prevButton s3 = Some p) by (unfold s3; cbn [prevButton setDots]; congruence).
  assert (N3 : nextButton s3 = Some q) by (unfold s3; cbn [nextButton setDots]; congruence).
  rewrite P3, N3. cbn [prevButton nextButton setButtons].
  assert (C3 : currentIndex s3 = c) by (unfold s3; cbn [currentIndex setDots]; exact Cc).
  rewrite C3. split; reflexivity.
Qed.

(** The index rule fills a prefix of the dots. *)
Lemma syncDotsByIndex_prefix (c : Z) (ds : list bool) :
  (0 <= c)%Z ->
  syncDotsByIndex c ds
  = repeat true (Nat.min (length ds) (Z.to_nat c + 1))
    ++ repeat false (length ds - (Z.to_nat c + 1)).
Proof.
  intros Hc. apply nth_error_ext. intros k.
  unfold syncDotsByIndex. rewrite forEach_const_nth_error.
  destruct (Nat.ltb_spec k (length ds)) as [Hk | Hk].
  - destruct (Z.leb_spec (Z.of_nat k) c) as [Hle | Hgt].
    + rewrite nth_error_app1 by (rewrite repeat_length; lia).
      symmetry. apply nth_error_repeat. lia.
    + rewrite nth_error_app2 by (rewrite repeat_length; lia).
      rewrite repeat_length. symmetry. apply nth_error_repeat. lia.
  - symmetry. apply nth_error_None. rewrite length_app, !repeat_length. lia.
Qed.

(** X4.  After [goToIndex] on a reachable instance whose layout is built,
    the filled dots are exactly the first [currentIndex + 1] ones: the dots
    read [true] up to the current item and [false] after it. *)
Theorem goToIndex_fills_dots_up_to_current (cfg : settings) (e : env) (i : Z)
        (s : state) (n : nat) :
  reachable cfg s -> itemsTrack s = true -> data s = Some n ->
  let s' := final (goToIndex e i s) in
  dots s' = repeat true (Z.to_nat (currentIndex s') + 1)
            ++ repeat false (n - (Z.to_nat (currentIndex s') + 1)).
Proof.
  intros Hr Hit Hd s'. subst s'.
  destruct (reachable_layoutConsistent cfg s Hr Hit) as (_ & _ & Hlen & Hpos).
  assert (Hn : n = length (dots s)) by congruence.
  assert (Hn0 : (0 < n)%nat) by lia.
  destruct (goToIndex_dots_and_buttons e i s n Hd Hn0 (goToIndex_returns cfg e i s Hr))
    as (Hdots & _).
  destruct n as [ | k]; [ lia | ].
  rewrite Hdots, (goToIndex_currentIndex e i s k Hd).
  pose proof (clampIndex_range i (S k) Hn0) as Hc.
  rewrite syncDotsByIndex_prefix by lia. rewrite <- Hn.
  f_equal. f_equal. lia.
Qed.

Lemma goToIndex_fills_dots_up_to_current_witness :
  reachable arrowSettings arrowInstance
  /\ currentIndex (final (goToIndex desktopPage 2 arrowInstance)) = 2%Z
  /\ dots (final (goToIndex desktopPage 2 arrowInstance))
     = [true; true; true; false; false].
Proof.
  assert (Hr : reachable arrowSettings arrowInstance)
    by exact (reach_init arrowSettings (Some 5%nat) true desktopPage).
  refine (conj Hr (conj eq_refl _)).
  exact (goToIndex_fills_dots_up_to_current arrowSettings desktopPage 2 arrowInstance 5
           Hr eq_refl eq_refl).
Defined.

(** X5.  After [goToIndex] on a reachable instance with items and both
    arrow buttons, the previous button is disabled exactly on the first item
    and the next button exactly on the last one; with a single item both are
    disabled. *)
Theorem goToIndex_arrow_states (cfg : settings) (e : env) (i : Z) (s : state)
        (n : nat) (p q : bool) :
  reachable cfg s -> data s = Some n -> (0 < n)%nat ->
  prevButton s = Some p -> nextButton s = Some q ->
  let s' := final (goToIndex e i s) in
  prevButton s' = Some (currentIndex s' =? 0)%Z
  /\ nextButton s' = Some (currentIndex s' =? Z.of_nat n - 1)%Z
  /\ (n = 1%nat -> prevButton s' = Some true /\ nextButton s' = Some true).
Proof.
  intros Hr Hd Hn Hp Hq s'. subst s'.
  destruct (goToIndex_dots_and_buttons e i s n Hd Hn (goToIndex_returns cfg e i s Hr))
    as (_ & Hb).
  destruct (Hb p q Hp Hq) as (Hprev & Hnext).
  pose proof (clampIndex_range i n Hn) as Hc.
  assert (Hci : currentIndex (final (goToIndex e i s)) = clampIndex i n).
  { destruct n as [ | k]; [ lia | ]. apply goToIndex_currentIndex. exact Hd. }
  rewrite Hprev, Hnext, Hci.
  assert (Heq : (Z.of_nat n - 1 <=? clampIndex i n)%Z
                = (clampIndex i n =? Z.of_nat n - 1)%Z).
  { destruct (Z.leb_spec (Z.of_nat n - 1) (clampIndex i n));
      destruct (Z.eqb_spec (clampIndex i n) (Z.of_nat n - 1)); try reflexivity; lia. }
  rewrite Heq. repeat split.
  - subst n. f_equal. apply Z.eqb_eq. change (Z.of_nat 1) with 1%Z in Hc. lia.
  - subst n. f_equal. apply Z.eqb_eq. change (Z.of_nat 1) with 1%Z in *. lia.
Qed.

Lemma goToIndex_arrow_states_witness :
  reachable arrowSettings arrowInstance
  /\ prevButton arrowInstance = Some false /\ nextButton arrowInstance = Some false
  /\ prevButton (final (goToIndex desktopPage 4 arrowInstance)) = Some false
  /\ nextButton (final (goToIndex desktopPage 4 arrowInstance)) = Some true.
Proof.
  assert (Hr : reachable arrowSettings arrowInstance)
    by exact (reach_init arrowSettings (Some 5%nat) true desktopPage).
  assert (Hn : (0 < 5)%nat) by lia.
  destruct (goToIndex_arrow_states arrowSettings desktopPage 4 arrowInstance 5 false false
              Hr eq_refl Hn eq_refl eq_refl) as (Hp & Hq & _).
  exact (conj Hr (conj eq_refl (conj eq_refl (conj Hp Hq)))).
Defined.

(** ** Running a pass twice on the same page *)

Lemma forEach_const_idem {A B : Type} (g : nat -> B) (l : list A) :
  forEach (fun k _ => g k) (forEach (fun k (_ : A) => g k) l)
  = forEach (fun k _ => g k) l.
Proof.
  apply nth_error_ext. intros k.
  rewrite !forEach_const_nth_error, forEach_length. reflexivity.
Qed.

Lemma goToIndex_idem (e : env) (i : Z) (s : state) :
  goToIndex e i (final (goToIndex e i s)) = goToIndex e i s.
Proof.
  destruct s as [d it lt pf ds sh ci pb nb sph itf ltf fw fh].
  destruct d as [ [ | k] | ]; try reflexivity.
  unfold goToIndex, centerCurrentItem, updateArrowStates, moveTracks, andThen.
  state_cbn.
  unfold syncDotsByIndex.
  rewrite ?forEach_const_idem, ?forEach_nth_error; unfold option_map.
  repeat (break_match; state_cbn; try discriminate;
          rewrite ?forEach_const_idem, ?forEach_nth_error in *; unfold option_map in *;
          try reflexivity; try congruence).
  all: repeat match goal with
              | H : Some _ = Some _ |- _ => injection H as H; subst
              end; reflexivity.
Qed.

Lemma updateTimeline_idem (cfg : settings) (e : env) (s : state) :
  updateTimeline cfg e (updateTimeline cfg e s) = updateTimeline cfg e s.
Proof.
  destruct s as [d it lt pf ds sh ci pb nb sph itf ltf fw fh].
  unfold updateTimeline, updateTimelineVertical, updateTimelineHorizontal, moveTracks,
    syncDotsX, syncDotsY.
  state_cbn.
  repeat (break_match; state_cbn; try discriminate;
          rewrite ?forEach_const_idem in *; try reflexivity; try congruence).
Qed.

Lemma calculateDimensions_idem (cfg : settings) (e : env) (s : state) :
  calculateDimensions cfg e (calculateDimensions cfg e s) = calculateDimensions cfg e s.
Proof.
  destruct s as [d it lt pf ds sh ci pb nb sph itf ltf fw fh].
  unfold calculateDimensions. state_cbn.
  repeat (break_match; state_cbn; try discriminate; try reflexivity; try congruence).
Qed.

(** X6.  [goToIndex] is idempotent: called again with the same index on the
    same page it returns, or raises, exactly as the first call did and leaves
    the state the first call left. *)
Theorem goToIndex_idempotent (e : env) (i : Z) (s : state) :
  goToIndex e i (final (goToIndex e i s)) = goToIndex e i s
  /\ final (goToIndex e i (final (goToIndex e i s))) = final (goToIndex e i s).
Proof.
  pose proof (goToIndex_idem e i s) as H. split; [ exact H | rewrite H; reflexivity ].
Qed.

(** X7.  A scroll pass and a dimension pass are idempotent: on an unchanged
    page a second [updateTimeline], a second [calculateDimensions] and a
    second resize recomputation of scroll mode change nothing. *)
Theorem scroll_passes_idempotent (cfg : settings) (e : env) (s : state) :
  updateTimeline cfg e (updateTimeline cfg e s) = updateTimeline cfg e s
  /\ calculateDimensions cfg e (calculateDimensions cfg e s) = calculateDimensions cfg e s
  /\ resizeScroll cfg e (resizeScroll cfg e s) = resizeScroll cfg e s.
Proof.
  split; [ apply updateTimeline_idem | split; [ apply calculateDimensions_idem | ] ].
  unfold resizeScroll.
  set (s1 := calculateDimensions cfg e s).
  assert (H : calculateDimensions cfg e (updateTimeline cfg e s1) = updateTimeline cfg e s1).
  { subst s1. destruct s as [d it lt pf ds sh ci pb nb sph itf ltf fw fh].
    unfold updateTimeline, updateTimelineVertical, updateTimelineHorizontal, moveTracks,
      calculateDimensions.
    state_cbn.
    repeat (break_match; state_cbn; try discriminate; try reflexivity; try congruence). }
  rewrite H. apply updateTimeline_idem.
Qed.

(** ** Bounds on what a scroll pass writes *)

Lemma inUnit_Fin (x : num) : inUnit x -> exists f, x = Fin f /\ 0 <= f <= 1.
Proof. destruct x; simpl; try contradiction. intros H. eauto. Qed.

Lemma percent_between (f : Q) :
  0 <= f <= 1 -> between 0 100 (JS.mul (Fin f) (Fin 100)).
Proof. intros [H0 H1]. simpl. split; lra. Qed.

Lemma translate_between (f trackWidth containerWidth : Q) :
  0 <= f <= 1 ->
  between 0 (Qmax 0 (trackWidth - containerWidth))
          (JS.mul (Fin f) (maxTranslate trackWidth containerWidth)).
Proof.
  intros [H0 H1]. unfold maxTranslate. simpl JS.sub.
  pose proof (max_Fin 0 (trackWidth + - containerWidth)) as Hm.
  destruct (JS.max (Fin 0) (Fin (trackWidth + - containerWidth))) as [m | | | ] eqn:E;
    simpl in Hm; try contradiction.
  unfold Qminus. simpl. rewrite <- Hm.
  assert (0 <= m) by (rewrite Hm; apply Q.le_max_l).
  split; nra.
Qed.


(** X8.  A horizontal scroll pass on finite geometry, 0/0 apart, writes a
    fill width between 0% and 100%, a fill height of 100% and, when the items
    container is there, a translation between 0 and
    [max(0, trackWidth - containerWidth)]. *)
Theorem horizontal_pass_outputs_bounded (cfg : settings) (e : env) (s : state)
        (rct : rect) (sh : Q) :
  scrollSpacer e = Some rct -> itemsTrack s = true -> progressFill s = true ->
  isVerticalMobile cfg e = false -> scrollHeight s = Fin sh ->
  ~ (- top rct == 0 /\ sh - contentHeight e == 0) ->
  (exists p, fillWidth (updateTimeline cfg e s) = Some p /\ between 0 100 p)
  /\ fillHeight (updateTimeline cfg e s) = Some (Fin 100)
  /\ (forall cw, itemsContainer e = Some cw ->
        exists t, itemsTransform (updateTimeline cfg e s) = Some t
                  /\ between 0 (Qmax 0 (trackScrollWidth e - cw)) t).
Proof.
  intros Hs Hit Hpf Hv Hsh Hnz.
  destruct (inUnit_Fin _ (horizontalProgress_inUnit (top rct) sh (contentHeight e) Hnz))
    as (f & Hf & Hb).
  unfold updateTimeline, updateTimelineHorizontal, moveTracks.
  rewrite Hs, Hit, Hpf, Hv, Hsh, Hf. state_cbn. rewrite Hit.
  split; [ | split ].
  - exists (JS.mul (Fin f) (Fin 100)). split; [ | apply percent_between; exact Hb ].
    repeat break_match; reflexivity.
  - repeat break_match; reflexivity.
  - intros cw Hc. rewrite Hc.
    exists (JS.mul (Fin f) (maxTranslate (trackScrollWidth e) cw)).
    split; [ | apply translate_between; exact Hb ].
    repeat break_match; reflexivity.
Qed.

Lemma horizontal_pass_outputs_bounded_witness :
  scrollHeight scrollInstance = Fin 2300
  /\ ~ (- top sampleSpacer == 0 /\ 2300 - contentHeight desktopPage == 0)
  /\ (exists p, fillWidth (updateTimeline scrollSettings desktopPage scrollInstance) = Some p
                /\ between 0 100 p)
  /\ (exists t, itemsTransform (updateTimeline scrollSettings desktopPage scrollInstance)
                = Some t /\ between 0 (Qmax 0 (2000 - 1000)) t).
Proof.
  assert (Hnz : ~ (- top sampleSpacer == 0 /\ 2300 - contentHeight desktopPage == 0))
    by (intros [H _]; vm_compute in H; discriminate).
  destruct (horizontal_pass_outputs_bounded scrollSettings desktopPage scrollInstance
              sampleSpacer 2300 eq_refl eq_refl eq_refl eq_refl eq_refl Hnz)
    as (Hfill & _ & Htr).
  exact (conj eq_refl (conj Hnz (conj Hfill (Htr 1000 eq_refl)))).
Defined.

(** X9.  A vertical scroll pass on finite geometry, 0/0 apart, writes a fill
    height between 0% and 100% and a fill width of 100%, and leaves the
    transforms of both tracks as they were. *)
Theorem vertical_pass_outputs_bounded (cfg : settings) (e : env) (s : state)
        (rct area : rect) :
  scrollSpacer e = Some rct -> itemsTrack s = true -> progressFill s = true ->
  isVerticalMobile cfg e = true -> timelineArea e = Some area ->
  ~ (innerHeight e * (3 # 10) - top area == 0
     /\ height area - innerHeight e * (3 # 10) == 0) ->
  (exists p, fillHeight (updateTimeline cfg e s) = Some p /\ between 0 100 p)
  /\ fillWidth (updateTimeline cfg e s) = Some (Fin 100)
  /\ itemsTransform (updateTimeline cfg e s) = itemsTransform s
  /\ labelsTransform (updateTimeline cfg e s) = labelsTransform s.
Proof.
  intros Hs Hit Hpf Hv Ha Hnz.
  destruct (inUnit_Fin _ (verticalProgress_inUnit (top area) (height area)
                            (innerHeight e) Hnz)) as (f & Hf & Hb).
  unfold updateTimeline, updateTimelineVertical.
  rewrite Hs, Hit, Hpf, Hv, Ha, Hf. state_cbn.
  split; [ | repeat split; repeat break_match; reflexivity ].
  exists (JS.mul (Fin f) (Fin 100)). split; [ | apply percent_between; exact Hb ].
  repeat break_match; reflexivity.
Qed.

(** A phone showing the timeline area from 100 down, 600 high. *)
Lemma vertical_pass_outputs_bounded_witness :
  isVerticalMobile verticalSettings phoneWithoutProgressTrack = true
  /\ (exists p, fillHeight (updateTimeline verticalSettings phoneWithoutProgressTrack
                              verticalInstance) = Some p /\ between 0 100 p)
  /\ fillWidth (updateTimeline verticalSettings phoneWithoutProgressTrack verticalInstance)
     = Some (Fin 100).
Proof.
  assert (Hnz : ~ (innerHeight phoneWithoutProgressTrack * (3 # 10) - top sampleArea == 0
                   /\ height sampleArea
                      - innerHeight phoneWithoutProgressTrack * (3 # 10) == 0))
    by (intros [H _]; vm_compute in H; discriminate).
  destruct (vertical_pass_outputs_bounded verticalSettings phoneWithoutProgressTrack
              verticalInstance sampleSpacer sampleArea
              eq_refl eq_refl eq_refl eq_refl eq_refl Hnz) as (Hfill & Hw & _).
  exact (conj eq_refl (conj Hfill Hw)).
Defined.



(** ** Errors *)

(** X11.  On a reachable instance the only event that raises an error is
    [goNext] on an instance without data, whose [this.data] is [null]; every
    other event, on every page, returns. *)
Theorem only_goNext_without_data_throws (cfg : settings) (e : env) (ev : event)
        (s : state) :
  reachable cfg s ->
  (threw (fire cfg e ev s) = true <-> data s = None /\ ev = EvNext).
Proof.
  intros Hr. split.
  - destruct ev; simpl; try discriminate.
    + rewrite (goToIndex_returns cfg e index s Hr). discriminate.
    + unfold goNext. destruct (data s) eqn:D; [ | auto ].
      destruct (currentIndex s <? _)%Z; [ | discriminate ].
      rewrite (goToIndex_returns cfg e _ s Hr). discriminate.
    + unfold goPrev. destruct (0 <? currentIndex s)%Z; [ | discriminate ].
      rewrite (goToIndex_returns cfg e _ s Hr). discriminate.
    + unfold resizeArrows. destruct (isVerticalMobile cfg e); [ discriminate | ].
      rewrite (goToIndex_returns cfg e _ (calculateDimensions cfg e s)
                 (reach_fire cfg s e EvDimensions Hr)).
      discriminate.
  - intros [Hd ->]. simpl. unfold goNext. rewrite Hd. reflexivity.
Qed.

Lemma only_goNext_without_data_throws_witness :
  reachable arrowSettings (init arrowSettings None true desktopPage)
  /\ data (init arrowSettings None true desktopPage) = None
  /\ threw (fire arrowSettings desktopPage EvNext (init arrowSettings None true desktopPage))
     = true
  /\ threw (fire arrowSettings desktopPage EvPrev (init arrowSettings None true desktopPage))
     = false.
Proof.
  assert (Hr : reachable arrowSettings (init arrowSettings None true desktopPage))
    by exact (reach_init arrowSettings None true desktopPage).
  refine (conj Hr (conj eq_refl (conj _ _))).
  - exact (proj2 (only_goNext_without_data_throws arrowSettings desktopPage EvNext _ Hr)
                 (conj eq_refl eq_refl)).
  - destruct (threw (fire arrowSettings desktopPage EvPrev
                       (init arrowSettings None true desktopPage))) eqn:E; [ | reflexivity ].
    destruct (proj1 (only_goNext_without_data_throws arrowSettings desktopPage EvPrev _ Hr) E)
      as (_ & Hev).
    discriminate Hev.
Defined.

(** ** An instance without layout *)

Section Inert.

Variable cfg : settings.

Lemma sameDisplay_refl s : sameDisplay s s.
Proof. repeat split. Qed.

Lemma sameDisplay_trans s1 s2 s3 :
  sameDisplay s1 s2 -> sameDisplay s2 s3 -> sameDisplay s1 s3.
Proof. unfold sameDisplay. intros (A & B & C & D) (A' & B' & C' & D'). repeat split; congruence. Qed.

Lemma updateTimeline_inert e s : inert s -> updateTimeline cfg e s = s.
Proof.
  intros [Hit _]. unfold updateTimeline. rewrite Hit.
  destruct (scrollSpacer e); reflexivity.
Qed.

Lemma calculateDimensions_inert e s :
  inert s -> inert (calculateDimensions cfg e s) /\ sameDisplay s (calculateDimensions cfg e s).
Proof.
  intros [Hit Hdots].
  destruct (calculateDimensions_frame cfg e s)
    as (_ & _ & Hd & Hi & _ & _ & Ht & Hl & Hw & Hh & _).
  unfold inert, sameDisplay. rewrite Hd, Hi. repeat split; assumption.
Qed.

Lemma goToIndex_inert e i s :
  inert s -> inert (final (goToIndex e i s)) /\ sameDisplay s (final (goToIndex e i s)).
Proof.
  intros [Hit Hdots].
  destruct (data s) as [ [ | k] | ] eqn:D;
    try (rewrite goToIndex_no_items by auto; split; [ split; assumption | apply sameDisplay_refl ]).
  assert (Hn : (0 < S k)%nat) by lia.
  rewrite (goToIndex_unfold e i s (S k) D Hn).
  rewrite (centerCurrentItem_skipped e (setCurrentIndex (clampIndex i (S k)) s) (S k))
    by (right; right; left; exact Hit).
  cbn [andThen].
  match goal with |- context [updateArrowStates ?x] => set (s3 := x) end.
  assert (Hd3 : data s3 = Some (S k)) by exact D.
  destruct (updateArrowStates_frame s3 (S k) Hd3) as (_ & Hds & Hti & Htl & Hfw & Hfh).
  assert (Hit3 : itemsTrack (final (updateArrowStates s3)) = false).
  { rewrite (proj2 (updateArrowStates_with_items s3 (S k) Hd3)).
    destruct (prevButton s3), (nextButton s3); exact Hit. }
  split.
  - split; [ exact Hit3 | ].
    rewrite Hds. unfold s3. cbn [dots setDots setCurrentIndex]. rewrite Hdots. reflexivity.
  - unfold sameDisplay. rewrite Hti, Htl, Hfw, Hfh. repeat split.
Qed.

Lemma fire_inert e ev s :
  inert s -> inert (final (fire cfg e ev s)) /\ sameDisplay s (final (fire cfg e ev s)).
Proof.
  intros H. destruct ev; simpl.
  - rewrite updateTimeline_inert by exact H. split; [ exact H | apply sameDisplay_refl ].
  - apply calculateDimensions_inert, H.
  - apply goToIndex_inert, H.
  - unfold goNext. destruct (data s); [ | split; [ exact H | apply sameDisplay_refl ] ].
    destruct (currentIndex s <? _)%Z;
      [ apply goToIndex_inert, H | split; [ exact H | apply sameDisplay_refl ] ].
  - unfold goPrev.
    destruct (0 <? currentIndex s)%Z;
      [ apply goToIndex_inert, H | split; [ exact H | apply sameDisplay_refl ] ].
  - destruct (calculateDimensions_inert e s H) as (Hi & Hs).
    unfold resizeArrows. destruct (isVerticalMobile cfg e); simpl.
    + rewrite updateTimeline_inert by exact Hi. split; assumption.
    + destruct (goToIndex_inert e (currentIndex (calculateDimensions cfg e s)) _ Hi)
        as (Hi' & Hs').
      split; [ exact Hi' | eapply sameDisplay_trans; eassumption ].
  - destruct (calculateDimensions_inert e s H) as (Hi & Hs).
    unfold resizeScroll. rewrite updateTimeline_inert by exact Hi. split; assumption.
  - split; [ split; reflexivity | repeat split ].
Qed.

End Inert.

(** X12.  An instance without layout writes nothing.  A torn-down instance,
    and one initialised without data, without items or without the content
    wrapper, references no item track and no dot; from such a state no event,
    on any page, changes a transform or the fill, and no dot appears. *)
Theorem instance_without_layout_writes_nothing (cfg : settings) :
  (forall s, inert (destroy s))
  /\ (forall found cw e,
        found = None \/ found = Some O \/ cw = false ->
        inert (init cfg found cw e)
        /\ sameDisplay newInstance (init cfg found cw e))
  /\ (forall s0 s, inert s0 -> reachableFrom cfg s0 s -> inert s /\ sameDisplay s0 s).
Proof.
  split; [ | split ].
  - intros s. split; reflexivity.
  - intros found cw e H. unfold init.
    assert (Hb : buildLayout cfg cw (extractData found newInstance)
                 = extractData found newInstance).
    { unfold buildLayout. cbn [data extractData].
      destruct H as [-> | [-> | ->]]; try reflexivity.
      destruct found as [ [ | k] | ]; reflexivity. }
    rewrite Hb.
    apply (calculateDimensions_inert cfg e (extractData found newInstance)).
    split; reflexivity.
  - intros s0 s H0 Hr. induction Hr as [ | s e ev _ IH].
    + split; [ exact H0 | apply sameDisplay_refl ].
    + destruct IH as (Hi & Hs). destruct (fire_inert cfg e ev s Hi) as (Hi' & Hs').
      split; [ exact Hi' | eapply sameDisplay_trans; eassumption ].
Qed.

(** The instance is torn down after a scroll pass; a late frame, a resize
    and a click on the next arrow follow. *)
Lemma instance_without_layout_writes_nothing_witness :
  let s0 := destroy (updateTimeline scrollSettings desktopPage scrollInstance) in
  let s := final (fire scrollSettings desktopPage EvNext
             (final (fire scrollSettings narrowerPage EvResizeScroll
                (final (fire scrollSettings desktopPage EvUpdate s0))))) in
  inert s0 /\ reachableFrom scrollSettings s0 s
  /\ itemsTransform s = Some (Fin (500000 # 1500)) /\ dots s = [] /\ sameDisplay s0 s.
Proof.
  intros s0 s.
  assert (H0 : inert s0) by (split; reflexivity).
  assert (Hr : reachableFrom scrollSettings s0 s).
  { exact (from_fire scrollSettings s0 _ desktopPage EvNext
             (from_fire scrollSettings s0 _ narrowerPage EvResizeScroll
                (from_fire scrollSettings s0 _ desktopPage EvUpdate
                   (from_here scrollSettings s0)))). }
  destruct (instance_without_layout_writes_nothing scrollSettings) as (_ & _ & H).
  destruct (H s0 s H0 Hr) as (Hi & Hs).
  refine (conj H0 (conj Hr (conj _ (conj (proj2 Hi) Hs)))).
  rewrite (proj1 Hs). reflexivity.
Defined.

(** ** One dot per item *)

(** X13.  In every reachable state that references the item track, the
    label track and the fill are referenced too, and [this.dots] holds one
    dot per item, at least one; every event keeps the number of dots. *)
Theorem one_dot_per_item (cfg : settings) (s : state) :
  reachable cfg s -> itemsTrack s = true ->
  data s = Some (length (dots s)) /\ (0 < length (dots s))%nat
  /\ labelsTrack s = true /\ progressFill s = true
  /\ (forall e ev, ev <> EvDestroy ->
        length (dots (final (fire cfg e ev s))) = length (dots s)).
Proof.
  intros Hr Hit.
  destruct (reachable_layoutConsistent cfg s Hr Hit) as (Hl & Hp & Hd & Hn).
  repeat split; try assumption.
  intros e ev Hev.
  pose proof (calculateDimensions_frame cfg e s) as (_ & _ & Hcd & _).
  destruct ev; simpl; try congruence.
  - apply updateTimeline_dots_length.
  - apply goToIndex_dots_length.
  - unfold goNext. destruct (data s); [ | reflexivity ].
    destruct (currentIndex s <? _)%Z; [ apply goToIndex_dots_length | reflexivity ].
  - unfold goPrev.
    destruct (0 <? currentIndex s)%Z; [ apply goToIndex_dots_length | reflexivity ].
  - unfold resizeArrows. destruct (isVerticalMobile cfg e); simpl.
    + rewrite updateTimeline_dots_length. congruence.
    + rewrite goToIndex_dots_length. congruence.
  - unfold resizeScroll. rewrite updateTimeline_dots_length. congruence.
Qed.

Lemma one_dot_per_item_witness :
  reachable scrollSettings scrollInstance /\ itemsTrack scrollInstance = true
  /\ data scrollInstance = Some (length (dots scrollInstance))
  /\ length (dots scrollInstance) = 5%nat.
Proof.
  assert (Hr : reachable scrollSettings scrollInstance)
    by exact (reach_init scrollSettings (Some 5%nat) true desktopPage).
  destruct (one_dot_per_item scrollSettings scrollInstance Hr eq_refl) as (Hd & _).
  exact (conj Hr (conj eq_refl (conj Hd eq_refl))).
Defined.

(** ** Coalescing of scroll events into frames *)

Section ScrollScheduler.

Variable cfg : settings.

(** At most one callback waits, and exactly when [ticking] is set. *)
Lemma scrollStep_frames (w : scrollWorld) (t : scrollTick) :
  frames w = (if ticking w then 1 else 0)%nat ->
  frames (scrollStep cfg w t) = (if ticking (scrollStep cfg w t) then 1 else 0)%nat.
Proof.
  intros H. destruct t as [ | e]; simpl.
  - unfold boundHandleScroll. destruct (ticking w) eqn:T; simpl; [ rewrite T | ]; lia.
  - unfold animationFrame. destruct (frames w) as [ | k] eqn:F; simpl.
    + rewrite F. exact H.
    + destruct (ticking w); lia.
Qed.

Lemma scrollRun_frames (trace : list scrollTick) :
  forall w, frames w = (if ticking w then 1 else 0)%nat ->
            frames (scrollRun cfg w trace)
            = (if ticking (scrollRun cfg w trace) then 1 else 0)%nat.
Proof.
  unfold scrollRun. induction trace as [ | t trace IH]; intros w H; simpl.
  - exact H.
  - apply IH, scrollStep_frames, H.
Qed.

Lemma callbacksRun_bound (trace : list scrollTick) :
  forall w, frames w = (if ticking w then 1 else 0)%nat ->
            (callbacksRun cfg w trace <= frames w + countScrolled trace)%nat.
Proof.
  induction trace as [ | t trace IH]; intros w H; simpl; [ lia | ].
  pose proof (IH _ (scrollStep_frames w t H)) as IH'.
  destruct t as [ | e]; simpl in *.
  - unfold boundHandleScroll in *. destruct (ticking w) eqn:T; simpl in *; lia.
  - unfold animationFrame in *. destruct (frames w) as [ | k] eqn:F; simpl in *.
    + rewrite F in IH'. lia.
    + destruct (ticking w); lia.
Qed.


End ScrollScheduler.

(** X14.  Whatever scroll events and animation frames arrive, in whatever
    order, the scroll handler never has more than one callback waiting, one
    waits exactly while [ticking] is set, and the callbacks that have run are
    no more than the scroll events received. *)
Theorem scroll_events_are_coalesced (cfg : settings) (s : state)
        (trace : list scrollTick) :
  (frames (scrollRun cfg (idle s) trace) <= 1)%nat
  /\ (ticking (scrollRun cfg (idle s) trace) = true
      <-> frames (scrollRun cfg (idle s) trace) = 1%nat)
  /\ (callbacksRun cfg (idle s) trace <= countScrolled trace)%nat.
Proof.
  pose proof (scrollRun_frames cfg trace (idle s) eq_refl) as H.
  pose proof (callbacksRun_bound cfg trace (idle s) eq_refl) as Hb.
  simpl in Hb.
  destruct (ticking (scrollRun cfg (idle s) trace)); rewrite H; repeat split; auto;
    try lia; discriminate.
Qed.

Lemma scroll_events_are_coalesced_witness :
  ticking (scrollRun scrollSettings (idle scrollInstance)
             [Scrolled; Scrolled; Frame desktopPage; Scrolled]) = true
  /\ frames (scrollRun scrollSettings (idle scrollInstance)
               [Scrolled; Scrolled; Frame desktopPage; Scrolled]) = 1%nat
  /\ (callbacksRun scrollSettings (idle scrollInstance)
                   [Scrolled; Scrolled; Frame desktopPage; Scrolled] <= 3)%nat.
Proof.
  destruct (scroll_events_are_coalesced scrollSettings scrollInstance
              [Scrolled; Scrolled; Frame desktopPage; Scrolled]) as (_ & Hiff & Hb).
  exact (conj eq_refl (conj (proj1 Hiff eq_refl) Hb)).
Defined.



(** ** Debouncing of resize events *)

Section ResizeScheduler.

Variable cfg : settings.

Lemma boundHandleResize_debounced (w : resizeWorld) :
  debounced w ->
  pending (boundHandleResize w) = [nextTimer w]
  /\ resizeTimeout (boundHandleResize w) = Some (nextTimer w)
  /\ resized (boundHandleResize w) = resized w.
Proof.
  intros [H | (id & Hid & H)]; unfold boundHandleResize; simpl; rewrite H.
  - destruct (resizeTimeout w); auto.
  - rewrite Hid. simpl. rewrite Nat.eqb_refl. auto.
Qed.

Lemma timerFires_debounced (e : env) (id : nat) (w : resizeWorld) :
  debounced w -> debounced (timerFires cfg e id w).
Proof.
  intros H. unfold timerFires.
  destruct (existsb (Nat.eqb id) (pending w)) eqn:E; [ | exact H ].
  destruct H as [H | (i & Hi & H)]; rewrite H in *; simpl in *; [ discriminate | ].
  rewrite orb_false_r in E. apply Nat.eqb_eq in E. subst i.
  left. simpl. rewrite Nat.eqb_refl. reflexivity.
Qed.

Lemma resizeStep_debounced (w : resizeWorld) (t : resizeTick) :
  debounced w -> debounced (resizeStep cfg w t).
Proof.
  intros H. destruct t as [ | e id]; simpl.
  - destruct (boundHandleResize_debounced w H) as (Hp & Hr & _).
    right. exists (nextTimer w). auto.
  - apply timerFires_debounced, H.
Qed.

Lemma resizeRun_debounced (trace : list resizeTick) :
  forall w, debounced w -> debounced (resizeRun cfg w trace).
Proof.
  unfold resizeRun. induction trace as [ | t trace IH]; intros w H; simpl.
  - exact H.
  - apply IH, resizeStep_debounced, H.
Qed.

Lemma resizeRun_burst (s : state) (k : nat) :
  resizeRun cfg (quiet s) (repeat Resized (S k)) = mkResizeWorld s (Some k) [k] (S k).
Proof.
  induction k as [ | k IH]; [ reflexivity | ].
  change (repeat Resized (S (S k))) with (Resized :: repeat Resized (S k)).
  rewrite repeat_cons. unfold resizeRun in *. rewrite fold_left_app, IH. simpl.
  unfold boundHandleResize. simpl. rewrite Nat.eqb_refl. reflexivity.
Qed.

End ResizeScheduler.

(** X16.  Whatever resize events and timers arrive, in whatever order, at
    most one timer of the resize handler is pending, and it is the one set by
    the latest resize event: each event cancels the timer of the one before. *)
Theorem resize_timer_is_unique (cfg : settings) (s : state) (trace : list resizeTick) :
  (length (pending (resizeRun cfg (quiet s) trace)) <= 1)%nat
  /\ (forall id, In id (pending (resizeRun cfg (quiet s) trace)) ->
                 resizeTimeout (resizeRun cfg (quiet s) trace) = Some id).
Proof.
  assert (H : debounced (resizeRun cfg (quiet s) trace))
    by (apply resizeRun_debounced; left; reflexivity).
  destruct H as [H | (i & Hi & H)]; rewrite H; simpl; (split; [ lia | ]).
  - intros id [].
  - intros id [<- | []]. exact Hi.
Qed.

Lemma resize_timer_is_unique_witness :
  In 1%nat (pending (resizeRun scrollSettings (quiet scrollInstance) [Resized; Resized]))
  /\ resizeTimeout (resizeRun scrollSettings (quiet scrollInstance) [Resized; Resized])
     = Some 1%nat.
Proof.
  assert (H : In 1%nat (pending (resizeRun scrollSettings (quiet scrollInstance)
                                   [Resized; Resized]))) by (left; reflexivity).
  exact (conj H (proj2 (resize_timer_is_unique scrollSettings scrollInstance
                          [Resized; Resized]) 1%nat H)).
Defined.

(** X17.  A burst of resize events runs the recomputation once: after one or
    more events without a timer firing in between, the instance is untouched
    and only the timer of the last event is pending; when it fires the
    recomputation of the navigation mode runs on the page as it is then and
    nothing stays pending, and a cancelled timer does nothing. *)
Theorem resize_burst_runs_one_recomputation (cfg : settings) (e : env) (s : state)
        (k : nat) :
  (0 < k)%nat ->
  let w := resizeRun cfg (quiet s) (repeat Resized k) in
  resized w = s /\ pending w = [(k - 1)%nat]
  /\ resized (timerFires cfg e (k - 1) w) = resizeCallback cfg e s
  /\ pending (timerFires cfg e (k - 1) w) = []
  /\ (forall id, id <> (k - 1)%nat -> timerFires cfg e id w = w).
Proof.
  intros Hk w. subst w. destruct k as [ | k]; [ lia | ].
  rewrite resizeRun_burst. replace (S k - 1)%nat with k by lia.
  unfold timerFires. simpl. rewrite Nat.eqb_refl. simpl.
  repeat split.
  intros id Hne. apply Nat.eqb_neq in Hne. rewrite Hne. reflexivity.
Qed.

Lemma resize_burst_runs_one_recomputation_witness :
  (0 < 3)%nat
  /\ pending (resizeRun arrowSettings (quiet arrowInstance) [Resized; Resized; Resized]) = [2%nat]
  /\ resized (timerFires arrowSettings narrowerPage 2
                (resizeRun arrowSettings (quiet arrowInstance) [Resized; Resized; Resized]))
     = final (resizeArrows arrowSettings narrowerPage arrowInstance).
Proof.
  assert (Hk : (0 < 3)%nat) by lia.
  destruct (resize_burst_runs_one_recomputation arrowSettings narrowerPage arrowInstance 3 Hk)
    as (_ & Hp & Hr & _).
  exact (conj Hk (conj Hp Hr)).
Defined.

(** ** Title and label of an item *)

Section TitleAndLabel.

Lemma span_app (p : N -> bool) (s : str) : fst (span p s) ++ snd (span p s) = s.
Proof.
  induction s as [ | c r IH]; simpl; [ reflexivity | ].
  destruct (p c); [ | reflexivity ].
  destruct (span p r) as [a b]. simpl in *. rewrite IH. reflexivity.
Qed.

Lemma span_forallb (p : N -> bool) (s : str) : forallb p (fst (span p s)) = true.
Proof.
  induction s as [ | c r IH]; simpl; [ reflexivity | ].
  destruct (p c) eqn:E; [ | reflexivity ].
  destruct (span p r) as [a b]. simpl in *. rewrite E, IH. reflexivity.
Qed.

Lemma span_stops (p : N -> bool) (a : str) (c : N) (r : str) :
  forallb p a = true -> p c = false -> span p (a ++ c :: r) = (a, c :: r).
Proof.
  intros Ha Hc. induction a as [ | x a IH]; simpl in *.
  - rewrite Hc. reflexivity.
  - apply andb_prop in Ha. destruct Ha as [Hx Ha]. rewrite Hx, (IH Ha). reflexivity.
Qed.

Lemma span_all (p : N -> bool) (a : str) : forallb p a = true -> span p a = (a, []).
Proof.
  intros Ha. induction a as [ | x a IH]; simpl in *; [ reflexivity | ].
  apply andb_prop in Ha. destruct Ha as [Hx Ha]. rewrite Hx, (IH Ha). reflexivity.
Qed.

Lemma not_in_forallb (c : N) (s : str) :
  ~ In c s <-> forallb (fun x => negb (x =? c)%N) s = true.
Proof.
  induction s as [ | x s IH]; simpl; [ tauto | ].
  rewrite andb_true_iff, negb_true_iff, N.eqb_neq, <- IH. intuition congruence.
Qed.

(** *** The two regular expressions *)

Lemma matchGroupAt_sound (s group rest : str) :
  matchGroupAt s = Some (group, rest) ->
  s = LBRACKET :: group ++ RBRACKET :: rest
  /\ group <> [] /\ ~ In RBRACKET group.
Proof.
  unfold matchGroupAt. destruct s as [ | c r]; [ discriminate | ].
  destruct (c =? LBRACKET)%N eqn:Ec; [ | discriminate ].
  apply N.eqb_eq in Ec. subst c.
  pose proof (span_app notRBracket r) as Happ.
  pose proof (span_forallb notRBracket r) as Hall.
  destruct (span notRBracket r) as [g b]. simpl in *.
  destruct g as [ | g0 g']; [ discriminate | ].
  destruct b as [ | d b']; [ discriminate | ].
  destruct (d =? RBRACKET)%N eqn:Ed; [ | discriminate ].
  apply N.eqb_eq in Ed. subst d.
  intros H. injection H as <- <-.
  split; [ rewrite <- Happ; reflexivity | split; [ discriminate | ] ].
  apply not_in_forallb. exact Hall.
Qed.

Lemma matchGroupAt_complete (group rest : str) :
  group <> [] -> ~ In RBRACKET group ->
  matchGroupAt (LBRACKET :: group ++ RBRACKET :: rest) = Some (group, rest).
Proof.
  intros Hne Hno. unfold matchGroupAt. rewrite N.eqb_refl.
  rewrite (span_stops notRBracket group RBRACKET rest).
  - destruct group; [ contradiction | ]. rewrite N.eqb_refl. reflexivity.
  - apply not_in_forallb. exact Hno.
  - reflexivity.
Qed.

Lemma matchGroupAt_other (c : N) (r : str) :
  c <> LBRACKET -> matchGroupAt (c :: r) = None.
Proof.
  intros H. unfold matchGroupAt. apply N.eqb_neq in H. rewrite H. reflexivity.
Qed.

Lemma labelMatch_eq (s : str) :
  labelMatch s = match matchGroupAt s with
                 | Some (group, _) => Some group
                 | None => match s with [] => None | _ :: r => labelMatch r end
                 end.
Proof. destruct s; reflexivity. Qed.

Lemma replaceGroup_eq (s : str) :
  replaceGroup s = match matchSpacedGroupAt s with
                   | Some rest => SPACE :: rest
                   | None => match s with [] => [] | c :: r => c :: replaceGroup r end
                   end.
Proof. destruct s; reflexivity. Qed.

Lemma labelMatch_sound (s l : str) :
  labelMatch s = Some l ->
  l <> [] /\ ~ In RBRACKET l
  /\ exists pre post, s = pre ++ LBRACKET :: l ++ RBRACKET :: post.
Proof.
  induction s as [ | c r IH]; [ discriminate | ].
  rewrite labelMatch_eq.
  destruct (matchGroupAt (c :: r)) as [ [g rest] | ] eqn:E.
  - intros H. injection H as <-.
    destruct (matchGroupAt_sound _ _ _ E) as (Hs & Hne & Hno).
    split; [ exact Hne | split; [ exact Hno | ] ].
    exists [], rest. exact Hs.
  - intros H. destruct (IH H) as (Hne & Hno & pre & post & Hs).
    split; [ exact Hne | split; [ exact Hno | ] ].
    exists (c :: pre), post. rewrite Hs. reflexivity.
Qed.

Lemma labelMatch_complete (pre l post : str) :
  ~ In LBRACKET pre -> l <> [] -> ~ In RBRACKET l ->
  labelMatch (pre ++ LBRACKET :: l ++ RBRACKET :: post) = Some l.
Proof.
  intros Hpre Hne Hno. induction pre as [ | c pre IH].
  - simpl app. rewrite labelMatch_eq, (matchGroupAt_complete l post Hne Hno). reflexivity.
  - simpl app. rewrite labelMatch_eq, matchGroupAt_other.
    + apply IH. intros H. apply Hpre. right. exact H.
    + intros ->. apply Hpre. left. reflexivity.
Qed.

(** *** [trim] *)

Lemma trimStart_cons_ws (c : N) (r : str) :
  isWhiteSpace c = true -> trimStart (c :: r) = trimStart r.
Proof.
  intros H. unfold trimStart. simpl. rewrite H.
  destruct (span isWhiteSpace r). reflexivity.
Qed.

Lemma trimStart_cons_other (c : N) (r : str) :
  isWhiteSpace c = false -> trimStart (c :: r) = c :: r.
Proof. intros H. unfold trimStart. simpl. rewrite H. reflexivity. Qed.

Lemma trimStart_all_ws (a b : str) :
  forallb isWhiteSpace a = true -> trimStart (a ++ b) = trimStart b.
Proof.
  intros H. induction a as [ | c a IH]; [ reflexivity | ].
  simpl in H. apply andb_prop in H. destruct H as [Hc Ha].
  simpl app. rewrite trimStart_cons_ws by exact Hc. apply IH, Ha.
Qed.

Lemma trimStart_app (a b : str) :
  forallb isWhiteSpace a = false -> trimStart (a ++ b) = trimStart a ++ b.
Proof.
  intros H. induction a as [ | c a IH]; [ discriminate | ].
  simpl app. destruct (isWhiteSpace c) eqn:Ec.
  - rewrite !trimStart_cons_ws by exact Ec. apply IH.
    simpl in H. rewrite Ec in H. exact H.
  - rewrite !trimStart_cons_other by exact Ec. reflexivity.
Qed.

Lemma trimEnd_all_ws (s : str) : forallb isWhiteSpace s = true -> trimEnd s = [].
Proof. intros H. destruct s; [ reflexivity | ]. unfold trimEnd. rewrite H. reflexivity. Qed.

Lemma trimEnd_cons (c : N) (r : str) :
  forallb isWhiteSpace (c :: r) = false -> trimEnd (c :: r) = c :: trimEnd r.
Proof. intros H. change (trimEnd (c :: r)) with (if forallb isWhiteSpace (c :: r) then [] else c :: trimEnd r). rewrite H. reflexivity. Qed.

Lemma trimEnd_app_ws (a w : str) :
  forallb isWhiteSpace w = true -> trimEnd (a ++ w) = trimEnd a.
Proof.
  intros Hw. induction a as [ | c a IH].
  - simpl app. rewrite trimEnd_all_ws by exact Hw. reflexivity.
  - simpl app. destruct (forallb isWhiteSpace (c :: a)) eqn:E.
    + rewrite (trimEnd_all_ws (c :: a)) by exact E.
      apply trimEnd_all_ws. change (c :: a ++ w) with ((c :: a) ++ w).
      rewrite forallb_app, E, Hw. reflexivity.
    + rewrite (trimEnd_cons c a) by exact E.
      rewrite trimEnd_cons, IH; [ reflexivity | ].
      change (c :: a ++ w) with ((c :: a) ++ w). rewrite forallb_app, E. reflexivity.
Qed.

Lemma trimEnd_keeps_other (s : str) :
  forallb isWhiteSpace s = false -> forallb isWhiteSpace (trimEnd s) = false.
Proof.
  induction s as [ | c r IH]; [ discriminate | ].
  intros H. rewrite trimEnd_cons by exact H.
  simpl in *. destruct (isWhiteSpace c); [ | reflexivity ].
  simpl in *. apply IH, H.
Qed.

Lemma trimEnd_idem (s : str) : trimEnd (trimEnd s) = trimEnd s.
Proof.
  induction s as [ | c r IH]; [ reflexivity | ].
  destruct (forallb isWhiteSpace (c :: r)) eqn:E.
  - rewrite (trimEnd_all_ws (c :: r)) by exact E. reflexivity.
  - rewrite (trimEnd_cons c r) by exact E.
    rewrite trimEnd_cons, IH; [ reflexivity | ].
    pose proof (trimEnd_keeps_other (c :: r) E) as H.
    rewrite (trimEnd_cons c r) in H by exact E. exact H.
Qed.

Lemma trimStart_trimEnd (s : str) : trimStart (trimEnd s) = trimEnd (trimStart s).
Proof.
  induction s as [ | c r IH]; [ reflexivity | ].
  destruct (forallb isWhiteSpace (c :: r)) eqn:E.
  - rewrite (trimEnd_all_ws (c :: r)) by exact E.
    rewrite <- (app_nil_r (c :: r)), trimStart_all_ws by exact E. reflexivity.
  - rewrite (trimEnd_cons c r) by exact E.
    destruct (isWhiteSpace c) eqn:Ec.
    + rewrite !trimStart_cons_ws by exact Ec. exact IH.
    + rewrite !trimStart_cons_other by exact Ec. rewrite trimEnd_cons by exact E. reflexivity.
Qed.

Lemma trimStart_idem (s : str) : trimStart (trimStart s) = trimStart s.
Proof.
  induction s as [ | c r IH]; [ reflexivity | ].
  destruct (isWhiteSpace c) eqn:Ec.
  - rewrite trimStart_cons_ws by exact Ec. exact IH.
  - rewrite trimStart_cons_other by exact Ec. apply trimStart_cons_other, Ec.
Qed.

Lemma trim_trimmed (s : str) : trimStart (trim s) = trim s /\ trimEnd (trim s) = trim s.
Proof.
  unfold trim. split; [ | apply trimEnd_idem ].
  rewrite trimStart_trimEnd, trimStart_idem. reflexivity.
Qed.

(** *** The replacement *)

Lemma matchSpacedGroupAt_prefix (pre l post : str) :
  ~ In LBRACKET pre -> l <> [] -> ~ In RBRACKET l ->
  matchSpacedGroupAt (pre ++ LBRACKET :: l ++ RBRACKET :: post)
  = if forallb isWhiteSpace pre then Some (trimStart post) else None.
Proof.
  intros Hpre Hne Hno. unfold matchSpacedGroupAt.
  destruct (forallb isWhiteSpace pre) eqn:E.
  - rewrite (span_stops isWhiteSpace pre LBRACKET _ E eq_refl). simpl snd.
    rewrite (matchGroupAt_complete l post Hne Hno). reflexivity.
  - assert (H : exists a c b, pre = a ++ c :: b /\ forallb isWhiteSpace a = true
                              /\ isWhiteSpace c = false).
    { clear Hpre. induction pre as [ | x pre IH]; [ discriminate | ].
      simpl in E. destruct (isWhiteSpace x) eqn:Ex.
      - simpl in E. destruct (IH E) as (a & c & b & -> & Ha & Hc).
        exists (x :: a), c, b. simpl. rewrite Ex, Ha. auto.
      - exists [], x, pre. auto. }
    destruct H as (a & c & b & -> & Ha & Hc).
    rewrite <- app_assoc. simpl app.
    rewrite (span_stops isWhiteSpace a c _ Ha Hc). simpl snd.
    rewrite matchGroupAt_other; [ reflexivity | ].
    intros ->. apply Hpre. apply in_or_app. right. left. reflexivity.
Qed.

Lemma replaceGroup_shape (pre l post : str) :
  ~ In LBRACKET pre -> l <> [] -> ~ In RBRACKET l ->
  replaceGroup (pre ++ LBRACKET :: l ++ RBRACKET :: post)
  = trimEnd pre ++ SPACE :: trimStart post.
Proof.
  intros Hpre Hne Hno. induction pre as [ | c pre IH].
  - rewrite replaceGroup_eq, (matchSpacedGroupAt_prefix [] l post Hpre Hne Hno).
    reflexivity.
  - rewrite replaceGroup_eq, (matchSpacedGroupAt_prefix (c :: pre) l post Hpre Hne Hno).
    destruct (forallb isWhiteSpace (c :: pre)) eqn:E.
    + rewrite (trimEnd_all_ws (c :: pre)) by exact E. reflexivity.
    + rewrite (trimEnd_cons c pre) by exact E. cbn [app]. rewrite IH; [ reflexivity | ].
      intros H. apply Hpre. right. exact H.
Qed.

End TitleAndLabel.

(** X18.  A title that holds no opening bracket, or no closing bracket, is
    kept as it is, white space included, and has no label. *)
Theorem title_without_brackets_is_kept (title : str) :
  ~ In LBRACKET title \/ ~ In RBRACKET title ->
  titleAndLabel title = (title, []).
Proof.
  intros H. unfold titleAndLabel.
  destruct (labelMatch title) as [l | ] eqn:E; [ exfalso | reflexivity ].
  destruct (labelMatch_sound title l E) as (_ & _ & pre & post & Hs).
  destruct H as [H | H]; apply H; rewrite Hs; apply in_or_app; right.
  - left. reflexivity.
  - right. apply in_or_app. right. left. reflexivity.
Qed.

Lemma title_without_brackets_is_kept_witness :
  ~ In LBRACKET (SPACE :: sampleTitleText)
  /\ titleAndLabel (SPACE :: sampleTitleText) = (SPACE :: sampleTitleText, []).
Proof.
  assert (H : ~ In LBRACKET (SPACE :: sampleTitleText)).
  { apply not_in_forallb. reflexivity. }
  exact (conj H (title_without_brackets_is_kept _ (or_introl H))).
Defined.

(** X19.  When a label is extracted it is not empty, holds no closing
    bracket and stands between brackets in the title; the title text that
    goes with it starts and ends with no white space. *)
Theorem extracted_label_is_bracketed (title : str) :
  snd (titleAndLabel title) <> [] ->
  ~ In RBRACKET (snd (titleAndLabel title))
  /\ (exists pre post,
        title = pre ++ LBRACKET :: snd (titleAndLabel title) ++ RBRACKET :: post)
  /\ trimStart (fst (titleAndLabel title)) = fst (titleAndLabel title)
  /\ trimEnd (fst (titleAndLabel title)) = fst (titleAndLabel title).
Proof.
  unfold titleAndLabel.
  destruct (labelMatch title) as [l | ] eqn:E; simpl; [ | intros H; contradiction ].
  intros _. destruct (labelMatch_sound title l E) as (_ & Hno & Hex).
  destruct (trim_trimmed (replaceGroup title)) as (Hs & He).
  auto.
Qed.

Lemma extracted_label_is_bracketed_witness :
  snd (titleAndLabel sampleTitle) = sampleLabel
  /\ ~ In RBRACKET (snd (titleAndLabel sampleTitle))
  /\ trimEnd (fst (titleAndLabel sampleTitle)) = fst (titleAndLabel sampleTitle).
Proof.
  assert (H : snd (titleAndLabel sampleTitle) <> []) by discriminate.
  destruct (extracted_label_is_bracketed sampleTitle H) as (Hno & _ & _ & He).
  exact (conj eq_refl (conj Hno He)).
Defined.

(** X20.  For a title made of a text without opening bracket, a bracketed
    group that is not empty and holds no closing bracket, and any rest, the
    label is the group, and the title text is the text and the rest joined by
    one space, with the white space around the group and at both ends
    removed; when only white space follows the group, the title text is the
    trimmed text. *)
Theorem title_and_label_of_bracketed_title (pre l post : str) :
  ~ In LBRACKET pre -> l <> [] -> ~ In RBRACKET l ->
  titleAndLabel (pre ++ LBRACKET :: l ++ RBRACKET :: post)
  = (trim (trimEnd pre ++ SPACE :: trimStart post), l)
  /\ (forallb isWhiteSpace post = true ->
      titleAndLabel (pre ++ LBRACKET :: l ++ RBRACKET :: post) = (trim pre, l)).
Proof.
  intros Hpre Hne Hno.
  assert (H : titleAndLabel (pre ++ LBRACKET :: l ++ RBRACKET :: post)
              = (trim (trimEnd pre ++ SPACE :: trimStart post), l)).
  { unfold titleAndLabel.
    rewrite (labelMatch_complete pre l post Hpre Hne Hno),
            (replaceGroup_shape pre l post Hpre Hne Hno).
    reflexivity. }
  split; [ exact H | ].
  intros Hpost. rewrite H. f_equal.
  rewrite <- (app_nil_r post), (trimStart_all_ws post [] Hpost).
  change (trimStart []) with (@nil N).
  unfold trim. destruct (forallb isWhiteSpace pre) eqn:E.
  - rewrite (trimEnd_all_ws pre E). simpl app.
    rewrite <- (app_nil_r pre), (trimStart_all_ws pre [] E).
    reflexivity.
  - rewrite trimStart_app by (apply trimEnd_keeps_other; exact E).
    rewrite (trimEnd_app_ws _ [SPACE] eq_refl).
    rewrite trimStart_trimEnd. apply trimEnd_idem.
Qed.

Lemma title_and_label_of_bracketed_title_witness :
  ~ In LBRACKET (sampleTitleText ++ [SPACE]) /\ sampleLabel <> []
  /\ ~ In RBRACKET sampleLabel
  /\ sampleTitle = (sampleTitleText ++ [SPACE]) ++ LBRACKET :: sampleLabel ++ RBRACKET :: []
  /\ titleAndLabel sampleTitle = (sampleTitleText, sampleLabel).
Proof.
  assert (H1 : ~ In LBRACKET (sampleTitleText ++ [SPACE])) by (apply not_in_forallb; reflexivity).
  assert (H2 : sampleLabel <> []) by discriminate.
  assert (H3 : ~ In RBRACKET sampleLabel) by (apply not_in_forallb; reflexivity).
  refine (conj H1 (conj H2 (conj H3 (conj eq_refl _)))).
  exact (proj2 (title_and_label_of_bracketed_title (sampleTitleText ++ [SPACE]) sampleLabel []
                  H1 H2 H3) eq_refl).
Defined.

(** ** Bounds on what [goToIndex] writes *)

Lemma between_same (lo hi : Q) (x y : num) : x =n= y -> between lo hi y -> between lo hi x.
Proof.
  destruct x, y; simpl; try contradiction; auto.
  intros H [H0 H1]. rewrite H. split; assumption.
Qed.

Lemma arrowTranslateX_between (item : itemBox) (containerWidth trackWidth : Q) :
  between 0 (Qmax 0 (trackWidth - containerWidth))
          (arrowTranslateX item containerWidth trackWidth).
Proof.
  eapply between_same; [ apply arrowTranslateX_spec | ].
  simpl. unfold spec_targetTranslate.
  apply spec_clamp_bounds. apply Q.le_max_l.
Qed.

Lemma geometricFillPercent_between (item : itemBox) (t : num) (trackWidth : Q) :
  (exists q, t = Fin q) -> 0 < trackWidth ->
  between 0 100 (geometricFillPercent item t trackWidth).
Proof.
  intros (q & ->) Hw. unfold geometricFillPercent.
  assert (H2 : ~ 2 == 0) by discriminate.
  assert (Hn : ~ trackWidth == 0) by (intros H; rewrite H in Hw; lra).
  rewrite (div_Fin _ 2 H2). simpl JS.add. simpl JS.sub.
  rewrite (div_Fin _ trackWidth Hn). simpl JS.mul.
  match goal with |- between _ _ (JS.min _ (JS.max _ (Fin ?x))) => set (v := x) end.
  eapply between_same.
  { eapply same_trans; [ apply min_same; [ apply same_refl | apply max_Fin ] | apply min_Fin ]. }
  simpl. split.
  - apply Q.min_glb; [ lra | apply Q.le_max_l ].
  - apply Q.le_min_l.
Qed.

(** X21.  On a reachable instance whose layout is built, with the items
    container, the progress track and the target item on the page, the
    translation [goToIndex] writes lies between 0 and
    [max(0, trackWidth - containerWidth)], and the fill width it writes lies
    between 0% and 100% as soon as the progress track has a positive width. *)
Theorem goToIndex_outputs_bounded (cfg : settings) (e : env) (s : state) (i : Z)
        (n : nat) (containerWidth : Q) (track : trackBox) (item : itemBox) :
  reachable cfg s -> itemsTrack s = true -> data s = Some n -> (0 < n)%nat ->
  itemsContainer e = Some containerWidth -> progressTrack e = Some track ->
  nth_error (trackItems e) (Z.to_nat (clampIndex i n)) = Some item ->
  0 < trackOffsetWidth track ->
  (exists t, itemsTransform (final (goToIndex e i s)) = Some t
             /\ between 0 (Qmax 0 (trackScrollWidth e - containerWidth)) t)
  /\ (exists p, fillWidth (final (goToIndex e i s)) = Some p /\ between 0 100 p).
Proof.
  intros Hr Hit Hd Hn Hc Hp Hitem Hw.
  destruct (reachable_layoutConsistent cfg s Hr Hit) as (Hlt & Hpf & Hlen & _).
  assert (Hcount : length (dots s) = n) by congruence.
  set (c := clampIndex i n) in *.
  assert (Hdot : (Z.to_nat c < length (dots s))%nat).
  { pose proof (clampIndex_range i n Hn) as H. fold c in H. lia. }
  set (t := arrowTranslateX item containerWidth (trackScrollWidth e)).
  rewrite (goToIndex_unfold e i s n Hd Hn). fold c.
  rewrite (centerCurrentItem_ready e (setCurrentIndex c s) n
             containerWidth track item Hc Hp Hit Hlt Hpf Hitem Hdot).
  fold t. cbn [andThen].
  match goal with |- context [updateArrowStates ?x] => set (s3 := x) end.
  assert (Hd3 : data s3 = Some n) by exact Hd.
  destruct (updateArrowStates_frame s3 n Hd3) as (_ & _ & Hti & _ & Hfw & _).
  rewrite Hti, Hfw. subst s3. state_cbn.
  pose proof (arrowTranslateX_between item containerWidth (trackScrollWidth e)) as Ht.
  fold t in Ht.
  split.
  - exists t. split; [ reflexivity | exact Ht ].
  - eexists. split; [ reflexivity | ].
    unfold fillPercent. destruct (c =? Z.of_nat n - 1)%Z.
    + simpl. split; lra.
    + apply geometricFillPercent_between; [ | exact Hw ].
      destruct t; simpl in Ht; try contradiction. eauto.
Qed.

Lemma goToIndex_outputs_bounded_witness :
  reachable arrowSettings arrowInstance /\ 0 < trackOffsetWidth sampleTrack
  /\ (exists t, itemsTransform (final (goToIndex desktopPage 2 arrowInstance)) = Some t
                /\ between 0 (Qmax 0 (2000 - 1000)) t)
  /\ (exists p, fillWidth (final (goToIndex desktopPage 2 arrowInstance)) = Some p
                /\ between 0 100 p).
Proof.
  assert (Hr : reachable arrowSettings arrowInstance)
    by exact (reach_init arrowSettings (Some 5%nat) true desktopPage).
  assert (Hn : (0 < 5)%nat) by lia.
  assert (Hw : 0 < trackOffsetWidth sampleTrack) by reflexivity.
  destruct (goToIndex_outputs_bounded arrowSettings desktopPage arrowInstance 2 5 1000
              sampleTrack (mkItemBox 800 400) Hr eq_refl eq_refl Hn eq_refl eq_refl
              eq_refl Hw) as (Ht & Hf).
  exact (conj Hr (conj Hw (conj Ht Hf))).
Defined.
